(** * FPLscraper: the concurrent fetch engine of [Scraper.py]

    A shallow embedding of [fetch_page] and [main] of [Scraper.py].

    - The remote service, the event loop and cancellation are the
      environment: for every page and every attempt index an
      [attempt_env] says what the three suspension points of one loop
      iteration ([async with semaphore], [session.get] / [response.json],
      [asyncio.sleep]) deliver.
    - [fetch_page] is then a function from that environment to the
      sequence of effects the coroutine performs (its [event]s) and the
      program point at which it ends (its [exit]).
    - [main] spawns one such task per page and the event loop interleaves
      them; [step] executes the next event of one task on the shared
      state (the semaphore counter, the output file and the module-level
      list [failed_attempts]).

    Logging and [print] calls, wall-clock measurements and I/O errors of
    the two local files are left out.

    [Normalise.main] embeds [main] of [normalise.py] on the parsed JSON
    document, for strs made of code points below 256. *)

From Stdlib Require Import ZArith List String Ascii Bool Lia.
From stdpp Require Import base tactics option list.

Import ListNotations.
Local Open Scope string_scope.
Local Open Scope list_scope.
Local Open Scope Z_scope.

(** ** Parsed JSON values and the Python operations applied to them *)

Module Json.

(** The value [await response.json()] returns. A JSON object is a Python
    [dict] (one entry per key, in insertion order); numbers that are not
    integers behave like integers in every operation below. *)
#[local] Unset Elimination Schemes.
Inductive json : Type :=
| JNull
| JBool (b : bool)
| JNum (n : Z)
| JStr (s : string)
| JArr (items : list json)
| JObj (fields : list (string * json)).
#[local] Set Elimination Schemes.

Definition is_substring (k s : string) : bool :=
  match String.index 0 k s with Some _ => true | None => false end.

Definition is_str (k : string) (v : json) : bool :=
  match v with JStr s => String.eqb k s | _ => false end.

Definition has_key (k : string) (fields : list (string * json)) : bool :=
  existsb (fun kv => String.eqb k (fst kv)) fields.

(** [k in v]: key membership for a dict, element membership for a list,
    substring test for a str; [None] is the [TypeError] of the other
    values ("argument of type ... is not iterable"). *)
Definition py_in (k : string) (v : json) : option bool :=
  match v with
  | JObj fields => Some (has_key k fields)
  | JArr items => Some (existsb (is_str k) items)
  | JStr s => Some (is_substring k s)
  | JNull | JBool _ | JNum _ => None
  end.

Fixpoint dict_get (k : string) (fields : list (string * json)) : option json :=
  match fields with
  | [] => None
  | (k', v) :: rest => if String.eqb k k' then Some v else dict_get k rest
  end.

(** [v[k]] with a str key: the value of a dict entry; [None] is the
    [KeyError] of a dict without the key and the [TypeError] of every
    other value (lists and strs want integer indices). *)
Definition py_getitem (v : json) (k : string) : option json :=
  match v with
  | JObj fields => dict_get k fields
  | _ => None
  end.

(** [for x in v]: the elements of a list, the keys of a dict, the
    characters of a str; [None] is the [TypeError] of the other values. *)
Definition py_iter (v : json) : option (list json) :=
  match v with
  | JArr items => Some items
  | JObj fields => Some (map (fun kv => JStr (fst kv)) fields)
  | JStr s => Some (map (fun c => JStr (String c EmptyString)) (list_ascii_of_string s))
  | JNull | JBool _ | JNum _ => None
  end.

End Json.
Import Json.

(** ** Effects of one fetch task *)

(** The dict built at lines 55-59, written as one line at line 60. *)
Record player_obj : Type := {
  full_name : json;
  team_name : json;
  player_id : json
}.

(** What a task does to the world, in program order. An event at the head
    of a task's pending sequence is the point where the task is suspended:
    waiting for a permit ([EAcquire]), for the response ([EGet]) or for the
    end of a sleep ([ESleep]). *)
Inductive event : Type :=
| EAcquire                    (* semaphore.acquire() returned *)
| ERelease                    (* semaphore.release(), on leaving [async with] *)
| EGet                        (* session.get(url) *)
| ESleep (d : Z)              (* asyncio.sleep(d) *)
| EWrite (o : player_obj)     (* f.write(json.dumps(o) + '\n'); f.flush() *)
| EAppend (page : nat).       (* failed_attempts.append(page) *)

Inductive exn : Type :=
| ClientResponseError (status : Z)
| ClientConnectionError
| ClientOSError
| CancelledError
| OtherException.             (* anything else caught by [except Exception] *)

Inductive json_result : Type :=
| JsonData (data : json)
| JsonRaised (x : exn).

Inductive get_result : Type :=
| Response (status : Z) (body : json_result)
| GetRaised (x : exn).

(** What the environment delivers during one iteration of the attempt
    loop. [acquired = false]: the task is cancelled while it waits for the
    semaphore. [slept = false]: the task is cancelled inside the
    [asyncio.sleep] of this iteration, if it reaches one. *)
Record attempt_env : Type := {
  acquired : bool;
  got : get_result;
  slept : bool
}.

(** The program point at which [fetch_page] ends. *)
Inductive exit : Type :=
| ExSuccess        (* return, line 67 *)
| ExMalformed      (* return, line 73 *)
| ExGaveUp         (* return, line 90 *)
| ExExhausted      (* end of the function, line 115 *)
| ExCancelled.     (* CancelledError leaves the coroutine *)

(** How one loop iteration ends. *)
Inductive signal : Type :=
| Continue
| Return (x : exit)
| Raise.

(** ** [fetch_page] *)

Definition max_attempts : nat := 5.

(** [5 * (2 ** attempt)], line 37. *)
Definition rate_limit_wait (attempt : nat) : Z := 5 * 2 ^ Z.of_nat attempt.

(** [2 ** attempt], lines 48, 81, 93 and 106. *)
Definition retry_wait (attempt : nat) : Z := 2 ^ Z.of_nat attempt.

Definition is_2xx (status : Z) : bool := (200 <=? status) && (status <? 300).
Definition is_5xx (status : Z) : bool := (500 <=? status) && (status <? 600).

(** ['standings' in data and 'results' in data['standings']], line 52. *)
Definition expected_keys (data : json) : option bool :=
  match py_in "standings" data with
  | None => None
  | Some false => Some false
  | Some true =>
      match py_getitem data "standings" with
      | None => None
      | Some standings => py_in "results" standings
      end
  end.

(** [data['standings']['results']], line 53. *)
Definition results_of (data : json) : option json :=
  match py_getitem data "standings" with
  | None => None
  | Some standings => py_getitem standings "results"
  end.

(** Lines 55-59; [None] when one of the three subscripts raises. *)
Definition make_player_obj (player : json) : option player_obj :=
  match py_getitem player "player_name" with
  | None => None
  | Some name =>
      match py_getitem player "entry_name" with
      | None => None
      | Some team =>
          match py_getitem player "entry" with
          | None => None
          | Some id => Some {| full_name := name; team_name := team; player_id := id |}
          end
      end
  end.

(** The loop of lines 54-61: the lines written, and whether the loop ran
    to its end ([false]: a subscript raised; the lines of the players
    before it are already in the file). *)
Fixpoint write_players (players : list json) : list event * bool :=
  match players with
  | [] => ([], true)
  | player :: rest =>
      match make_player_obj player with
      | None => ([], false)
      | Some o => let (w, ok) := write_players rest in (EWrite o :: w, ok)
      end
  end.

(** [await asyncio.sleep(d)] followed by [next]. *)
Definition sleep (e : attempt_env) (d : Z) (next : list event * signal)
  : list event * signal :=
  if slept e then (ESleep d :: fst next, snd next) else ([ESleep d], Raise).

(** The [except] clauses, lines 75-110. *)
Definition handle (page attempt : nat) (e : attempt_env) (x : exn)
  : list event * signal :=
  match x with
  | ClientResponseError status =>
      if is_5xx status then sleep e (retry_wait attempt) ([], Continue)
      else sleep e 2
             (if Nat.eqb attempt (max_attempts - 1)
              then ([EAppend page], Return ExGaveUp)
              else ([], Continue))
  | ClientConnectionError | ClientOSError =>
      sleep e (retry_wait attempt) ([], Continue)
  | CancelledError => ([], Raise)
  | OtherException => sleep e (retry_wait attempt) ([], Continue)
  end.

(** The body of [async with session.get(...) as response], lines 36-73. *)
Definition on_response (page attempt : nat) (e : attempt_env)
    (status : Z) (body : json_result) : list event * signal :=
  if status =? 429 then sleep e (rate_limit_wait attempt) ([], Continue)
  else if negb (is_2xx status) then sleep e (retry_wait attempt) ([], Continue)
  else
    match body with
    | JsonRaised x => handle page attempt e x
    | JsonData data =>
        match expected_keys data with
        | None => handle page attempt e OtherException
        | Some false => ([EAppend page], Return ExMalformed)
        | Some true =>
            match results_of data with
            | None => handle page attempt e OtherException
            | Some results =>
                match py_iter results with
                | None => handle page attempt e OtherException
                | Some players =>
                    let (w, ok) := write_players players in
                    if ok then (w, Return ExSuccess)
                    else
                      let (h, sg) := handle page attempt e OtherException in
                      (w ++ h, sg)
                end
            end
        end
    end.

(** The [try] statement, lines 34-110. *)
Definition attempt_body (page attempt : nat) (e : attempt_env)
  : list event * signal :=
  let (tr, sg) :=
    match got e with
    | Response status body => on_response page attempt e status body
    | GetRaised x => handle page attempt e x
    end in
  (EGet :: tr, sg).

(** One iteration of the loop, lines 28-110: the [async with semaphore]
    block releases the permit on every way out of its body. *)
Definition run_attempt (page attempt : nat) (e : attempt_env)
  : list event * signal :=
  if acquired e then
    let (tr, sg) := attempt_body page attempt e in
    (EAcquire :: tr ++ [ERelease], sg)
  else ([], Raise).

(** [for attempt in range(max_attempts): ...] followed by lines 112-115. *)
Fixpoint fetch_loop (page : nat) (env : nat -> attempt_env)
    (attempts : list nat) : list event * exit :=
  match attempts with
  | [] => ([EAppend page], ExExhausted)
  | attempt :: rest =>
      let (tr, sg) := run_attempt page attempt (env attempt) in
      match sg with
      | Continue => let (tr', x) := fetch_loop page env rest in (tr ++ tr', x)
      | Return x => (tr, x)
      | Raise => (tr, ExCancelled)
      end
  end.

Definition fetch_page (page : nat) (env : nat -> attempt_env)
  : list event * exit :=
  fetch_loop page env (seq 0 max_attempts).

(** ** The run: tasks on the event loop *)

(** A task created by [asyncio.create_task(fetch_page(...))]: the events it
    has performed, those it still has to perform, and the exit its
    environment leads it to. *)
Record task : Type := {
  t_page : nat;
  t_exit : exit;
  t_done : list event;
  t_pending : list event
}.

(** The state the tasks share: [semaphore._value], the lines of
    [player_data.json], the module-level list [failed_attempts], and the
    tasks themselves. *)
Record state : Type := {
  sem : Z;
  out_file : list player_obj;
  failed_attempts : list nat;
  tasks : list task
}.

(** The environment of a run: what page [p] is delivered at attempt [a]. *)
Definition environment : Type := nat -> nat -> attempt_env.

Definition spawn (envs : environment) (page : nat) : task :=
  let (tr, x) := fetch_page page (envs page) in
  {| t_page := page; t_exit := x; t_done := []; t_pending := tr |}.

(** [range(1, total_pages + 1)], line 133. *)
Definition pages (total_pages : nat) : list nat := seq 1 total_pages.

(** The state when [main] reaches [asyncio.gather], line 144: the
    semaphore of line 127 is untouched, the output file was truncated by
    [open(..., 'w')], [failed_attempts] is the empty list of line 17, and
    the loop of lines 133-135 has created one task per page, none of which
    has run yet (the loop has no suspension point). *)
Definition init (total_pages : nat) (capacity : Z) (envs : environment) : state :=
  {| sem := capacity;
     out_file := [];
     failed_attempts := [];
     tasks := map (spawn envs) (pages total_pages) |}.

(** The effect of one event on the shared state; [None]: the task stays
    suspended ([acquire] waits while the counter is zero). *)
Definition exec (e : event) (s : state) : option state :=
  match e with
  | EAcquire =>
      if 0 <? sem s
      then Some {| sem := sem s - 1; out_file := out_file s;
                   failed_attempts := failed_attempts s; tasks := tasks s |}
      else None
  | ERelease =>
      Some {| sem := sem s + 1; out_file := out_file s;
              failed_attempts := failed_attempts s; tasks := tasks s |}
  | EGet | ESleep _ => Some s
  | EWrite o =>
      Some {| sem := sem s; out_file := out_file s ++ [o];
              failed_attempts := failed_attempts s; tasks := tasks s |}
  | EAppend page =>
      Some {| sem := sem s; out_file := out_file s;
              failed_attempts := failed_attempts s ++ [page]; tasks := tasks s |}
  end.

Definition advance (t : task) (e : event) (rest : list event) : task :=
  {| t_page := t_page t; t_exit := t_exit t;
     t_done := t_done t ++ [e]; t_pending := rest |}.

(** The event loop resumes task [i] for one event. *)
Definition step (i : nat) (s : state) : option state :=
  match tasks s !! i with
  | None => None
  | Some t =>
      match t_pending t with
      | [] => None
      | e :: rest =>
          match exec e s with
          | None => None
          | Some s' =>
              Some {| sem := sem s'; out_file := out_file s';
                      failed_attempts := failed_attempts s';
                      tasks := <[i := advance t e rest]> (tasks s') |}
          end
      end
  end.

(** A schedule: the tasks the event loop resumes, in order. *)
Fixpoint run (sched : list nat) (s : state) : option state :=
  match sched with
  | [] => Some s
  | i :: rest =>
      match step i s with
      | None => None
      | Some s' => run rest s'
      end
  end.

Definition task_finished (t : task) : bool :=
  match t_pending t with [] => true | _ :: _ => false end.

(** [asyncio.gather] with [return_exceptions=True] returns once every
    task has ended, by return or by exception. *)
Definition finished (s : state) : bool := forallb task_finished (tasks s).

(** Lines 147-148 and 157-158: the two counts and the document
    [{'Failed Pages': failed_attempts}] written to [failed_attempts.json]. *)
Record summary : Type := {
  success_count : Z;
  failed_count : Z;
  failed_pages : list nat
}.

Definition summarise (total_pages : nat) (s : state) : summary :=
  let failed_count := Z.of_nat (length (failed_attempts s)) in
  {| success_count := Z.of_nat total_pages - failed_count;
     failed_count := failed_count;
     failed_pages := failed_attempts s |}.

(** [main], lines 118-170, under a schedule of the event loop: [None] when
    the schedule resumes a task that cannot run or stops before every task
    has ended. *)
Definition main (total_pages : nat) (capacity : Z) (envs : environment)
    (sched : list nat) : option (summary * state) :=
  match run sched (init total_pages capacity envs) with
  | None => None
  | Some s => if finished s then Some (summarise total_pages s, s) else None
  end.

(** The configuration of lines 15-16. *)
Definition max_concurrent_requests : Z := 50.
Definition total_pages : nat := Z.to_nat 214849.

(** ** Measures on event sequences *)

Definition weight (w : event -> Z) (tr : list event) : Z :=
  fold_right (fun e acc => w e + acc) 0 tr.

Definition sumZ (l : list Z) : Z := fold_right Z.add 0 l.

(** The sum of a measure over what all tasks have done so far. *)
Definition total (w : event -> Z) (ts : list task) : Z :=
  sumZ (map (fun t => weight w (t_done t)) ts).

Definition permit (e : event) : Z :=
  match e with EAcquire => 1 | ERelease => -1 | _ => 0 end.

Definition appends (p : nat) (e : event) : Z :=
  match e with EAppend q => if Nat.eqb p q then 1 else 0 | _ => 0 end.

Definition is_write (e : event) : Z :=
  match e with EWrite _ => 1 | _ => 0 end.

Definition is_get (e : event) : Z :=
  match e with EGet => 1 | _ => 0 end.

Definition slept_for (e : event) : Z :=
  match e with ESleep d => d | _ => 0 end.

(** The permits a task holds after the events [tr]. *)
Definition holds (tr : list event) : Z := weight permit tr.

(** The fetch attempts past [acquire] and before [release]. *)
Definition in_flight (s : state) : nat :=
  length (List.filter (fun t => 0 <? holds (t_done t)) (tasks s)).

(** How often a page is in the failure ledger. *)
Definition recorded (p : nat) (s : state) : Z :=
  Z.of_nat (count_occ Nat.eq_dec (failed_attempts s) p).

(** [scoped h tr]: starting with ([h = true]) or without the permit, the
    events [tr] acquire and release alternately, request, sleep and write
    only with the permit, and end without it. *)
Fixpoint scoped (h : bool) (tr : list event) : bool :=
  match tr with
  | [] => negb h
  | EAcquire :: rest => negb h && scoped true rest
  | ERelease :: rest => h && scoped false rest
  | EAppend _ :: rest => scoped h rest
  | (EGet | ESleep _ | EWrite _) :: rest => h && scoped h rest
  end.

(** ** Vocabulary of the statements *)

Definition is_write_event (e : event) : Prop := exists o, e = EWrite o.

(** What follows the request and the lines written in one iteration. *)
Inductive tail_shape (page attempt : nat) (e : attempt_env)
  : list event -> signal -> Prop :=
| ts_success : tail_shape page attempt e [] (Return ExSuccess)
| ts_malformed : tail_shape page attempt e [EAppend page] (Return ExMalformed)
| ts_retry d : slept e = true -> tail_shape page attempt e [ESleep d] Continue
| ts_gave_up :
    slept e = true -> attempt = (max_attempts - 1)%nat ->
    tail_shape page attempt e [ESleep 2; EAppend page] (Return ExGaveUp)
| ts_cancelled_asleep d :
    slept e = false -> tail_shape page attempt e [ESleep d] Raise
| ts_cancelled : tail_shape page attempt e [] Raise.

(** How often a task that ends at [x] has appended its page. *)
Definition exit_recorded (x : exit) : Z :=
  match x with
  | ExSuccess | ExCancelled => 0
  | ExMalformed | ExGaveUp | ExExhausted => 1
  end.

Definition own (q page : nat) (n : Z) : Z := if Nat.eqb q page then n else 0.

(** What never changes in a task: its page, its exit, and the whole
    sequence of its events. *)
Definition origin (t : task) : nat * exit * list event :=
  (t_page t, t_exit t, t_done t ++ t_pending t).

Definition trace_of (envs : environment) (page : nat) : list event :=
  fst (fetch_page page (envs page)).

Definition exit_of (envs : environment) (page : nat) : exit :=
  snd (fetch_page page (envs page)).

Definition written (e : event) : list player_obj :=
  match e with EWrite o => [o] | _ => [] end.

Definition appended (e : event) : list nat :=
  match e with EAppend p => [p] | _ => [] end.

Section RunState.

Variable n_pages : nat.
Variable capacity : Z.
Variable envs : environment.

(** What holds in every state the event loop can be in, in a run over
    [n_pages] pages with [capacity] permits. *)
Record invariant (s : state) : Prop := {
  inv_sem : 0 <= sem s;
  inv_permits : sem s + total permit (tasks s) = capacity;
  inv_ledger : forall p, recorded p s = total (appends p) (tasks s);
  inv_lines : Z.of_nat (length (out_file s)) = total is_write (tasks s);
  inv_origin : map origin (tasks s) = map origin (map (spawn envs) (pages n_pages))
}.

(** [p] is one of the pages of the run. *)
Definition in_range (p : nat) : bool := (1 <=? p)%nat && (p <=? n_pages)%nat.

End RunState.

(** The events the tasks still have to perform. *)
Definition remaining (s : state) : nat :=
  fold_right (fun t acc => (length (t_pending t) + acc)%nat) 0%nat (tasks s).

(** *** Backoff *)

(** The failure kinds of the specification's Backoff Policy. *)
Inductive failure_kind : Type := RateLimited | ServerError | Generic.

(** The Backoff Policy as the specification words it:
    [delay(attempt, failureKind)]. *)
Definition spec_delay (attempt : nat) (k : failure_kind) : Z :=
  match k with
  | RateLimited => 5 * 2 ^ Z.of_nat attempt
  | ServerError | Generic => 2 ^ Z.of_nat attempt
  end.

(** The kind of failure an attempt meets, after the specification's
    taxonomy: status 429; another status outside [200, 300) or a
    [ClientResponseError] in the 5xx class; a connection-level or
    unexpected exception. [None]: no such failure (a 2xx response whose
    body is read, a [ClientResponseError] outside the 5xx class, a
    cancellation). *)
Definition failure_kind_of (g : get_result) : option failure_kind :=
  match g with
  | Response status body =>
      if status =? 429 then Some RateLimited
      else if negb (is_2xx status) then Some ServerError
      else match body with
           | JsonRaised (ClientConnectionError | ClientOSError | OtherException) =>
               Some Generic
           | JsonRaised (ClientResponseError st) =>
               if is_5xx st then Some ServerError else None
           | JsonRaised CancelledError | JsonData _ => None
           end
  | GetRaised (ClientResponseError st) => if is_5xx st then Some ServerError else None
  | GetRaised (ClientConnectionError | ClientOSError | OtherException) => Some Generic
  | GetRaised CancelledError => None
  end.

(** An attempt that is answered, keeps its sleep, and gets [g]. *)
Definition answered (g : get_result) : attempt_env :=
  {| acquired := true; got := g; slept := true |}.

(** The remote call of this attempt returns status 500, and the task is
    not cancelled during the attempt. *)
Definition answers_500 (e : attempt_env) : Prop :=
  acquired e = true /\ slept e = true /\ exists body, got e = Response 500 body.

Definition retry_events (attempt : nat) : list event :=
  [EAcquire; EGet; ESleep (retry_wait attempt); ERelease].

Definition malformed_events (page : nat) : list event :=
  [EAcquire; EGet; EAppend page; ERelease].

(** The body [{"standings": null}]. *)
Definition null_standings : json := JObj [("standings", JNull)].

(** The task is cancelled during this attempt: while it waits for the
    semaphore, for the response or its body, or inside the sleep the
    attempt reaches. *)
Inductive receives_cancellation (page attempt : nat) (e : attempt_env) : Prop :=
| rc_acquire : acquired e = false -> receives_cancellation page attempt e
| rc_request :
    acquired e = true -> got e = GetRaised CancelledError ->
    receives_cancellation page attempt e
| rc_body status :
    acquired e = true -> is_2xx status = true ->
    got e = Response status (JsonRaised CancelledError) ->
    receives_cancellation page attempt e
| rc_sleep d :
    acquired e = true -> slept e = false ->
    In (ESleep d) (fst (run_attempt page attempt e)) ->
    receives_cancellation page attempt e.

(** The two operations on the semaphore. *)
Definition is_permit_event (e : event) : bool :=
  match e with EAcquire | ERelease => true | _ => false end.

(** The exits of a page that failed for good. *)
Definition terminal_failure (x : exit) : Prop :=
  x = ExMalformed \/ x = ExGaveUp \/ x = ExExhausted.

(** What the success exit of a page's task stands for. *)
Definition success_path (envs : environment) (p : nat) : Prop :=
  exists attempt status data results players w pre,
    (attempt < max_attempts)%nat /\
    got (envs p attempt) = Response status (JsonData data) /\
    is_2xx status = true /\
    results_of data = Some results /\ py_iter results = Some players /\
    write_players players = (w, true) /\
    trace_of envs p = pre ++ EAcquire :: EGet :: w ++ [ERelease].

(** The exits that leave no entry in the ledger. *)
Definition unrecorded_exit (x : exit) : bool :=
  match x with
  | ExSuccess | ExCancelled => true
  | ExMalformed | ExGaveUp | ExExhausted => false
  end.

(** *** Runs used as examples *)

(** The scenario of the specification's last testable property: three
    pages and two permits; page 1 succeeds at once with two records, page
    2 is rate limited once and then succeeds with one record, page 3 is
    answered with status 500 every time. *)
Module Scenario.

Definition player (name team : string) (id : Z) : json :=
  JObj [("player_name", JStr name); ("entry_name", JStr team); ("entry", JNum id)].

Definition standings (players : list json) : json :=
  JObj [("standings", JObj [("results", JArr players)])].

Definition envs : environment := fun page attempt =>
  match page, attempt with
  | 1%nat, _ =>
      answered (Response 200
        (JsonData (standings [player "Ann" "Reds" 11; player "Bob" "Blues" 12])))
  | 2%nat, 0%nat => answered (Response 429 (JsonData JNull))
  | 2%nat, _ =>
      answered (Response 200 (JsonData (standings [player "Cy" "Greens" 21])))
  | _, _ => answered (Response 500 (JsonData JNull))
  end.

(** Pages 1 and 2 take the two permits; page 2 is rate limited and goes
    to sleep with its permit, and page 3 gets one only when page 1 is
    through. *)
Definition opening : list nat := [0; 1; 0; 1; 0; 0]%nat.

Definition sched : list nat :=
  opening ++ [1; 0; 2; 1; 1; 2; 2; 2; 1; 1; 1]%nat ++ repeat 2%nat 17.

Definition midway : state :=
  Eval vm_compute in
    match run opening (init 3 2 envs) with Some s => s | None => init 3 2 envs end.

Definition final : state :=
  Eval vm_compute in
    match run sched (init 3 2 envs) with Some s => s | None => init 3 2 envs end.

(** The same three pages, but the run is torn down while page 2 waits for
    its second response. *)
Definition envs_cancelled : environment := fun page attempt =>
  match page, attempt with
  | 2%nat, 1%nat => {| acquired := true; got := GetRaised CancelledError; slept := true |}
  | _, _ => envs page attempt
  end.

Definition sched_cancelled : list nat :=
  opening ++ [1; 0; 2; 1; 1; 2; 2; 2; 1; 1]%nat ++ repeat 2%nat 17.

Definition final_cancelled : state :=
  Eval vm_compute in
    match run sched_cancelled (init 3 2 envs_cancelled) with
    | Some s => s
    | None => init 3 2 envs_cancelled
    end.

End Scenario.

(** The task of page 2 in [Scenario.midway], suspended in its backoff sleep. *)
Definition sleeping_task : task :=
  Eval vm_compute in
    match tasks Scenario.midway !! 1%nat with
    | Some t => t
    | None => spawn Scenario.envs 2
    end.

(** Every page is answered at once with an empty result list. *)
Definition envs_empty_page : environment :=
  fun _ _ => answered (Response 200 (JsonData (Scenario.standings []))).

(** Every page is answered with two entries, the second of which lacks
    the key ['entry']. *)
Definition envs_partial_page : environment :=
  fun _ _ =>
    answered (Response 200 (JsonData (Scenario.standings
      [Scenario.player "Ann" "Reds" 11;
       JObj [("player_name", JStr "Bob"); ("entry_name", JStr "Blues")]]))).

(** The state after the only task of that run has performed its 26 events. *)
Definition final_partial : state :=
  Eval vm_compute in
    match run (repeat 0%nat 26) (init 1 max_concurrent_requests envs_partial_page) with
    | Some s => s
    | None => init 1 max_concurrent_requests envs_partial_page
    end.

(** ** Further vocabulary: lines, waits and reports *)

(** The lines a sequence of events writes to the output file. *)
Definition lines (tr : list event) : list player_obj := flat_map written tr.

(** The lines all tasks have written so far, task by task. *)
Definition all_lines (ts : list task) : list player_obj :=
  flat_map (fun t => lines (t_done t)) ts.

(** The file holds the lines the tasks have written, and those of each
    task in the order the task wrote them. *)
Definition output_invariant (s : state) : Prop :=
  Permutation (out_file s) (all_lines (tasks s)) /\
  forall t, In t (tasks s) -> sublist (lines (t_done t)) (out_file s).



(** The remote call of this attempt ends in a [ClientResponseError] whose
    status is outside the 5xx class, and the task is not cancelled. *)
Definition refused (e : attempt_env) : Prop :=
  acquired e = true /\ slept e = true /\
  exists status, got e = GetRaised (ClientResponseError status) /\ is_5xx status = false.

Definition refused_events : list event := [EAcquire; EGet; ESleep 2; ERelease].

(** The longest wait of an attempt is the rate-limit one. *)
Definition longest_wait (attempts : list nat) : Z :=
  sumZ (map rate_limit_wait attempts).

(** The pages of the run whose task ends in a terminal failure. *)
Definition failing_pages (envs : environment) (n_pages : nat) : list nat :=
  List.filter (fun p => negb (unrecorded_exit (exit_of envs p))) (pages n_pages).

(** ** [normalise.py] *)

(** [main] of [normalise.py] on the value [json.load] returns. A [str] is
    its sequence of code points, and the model covers the code points
    below 256, on which [str.strip] and [str.lower] work character by
    character as below. *)
Module Normalise.

(** [c.isspace()]: the characters [str.strip()] removes. *)
Definition is_space (c : ascii) : bool :=
  let n := N_of_ascii c in
  (((9 <=? n) && (n <=? 13)) || ((28 <=? n) && (n <=? 32)) ||
   (n =? 133) || (n =? 160))%N.

(** The characters [str.lower()] changes: A-Z and the capital letters of
    Latin-1 (the multiplication sign 215 is not one). *)
Definition is_upper (c : ascii) : bool :=
  let n := N_of_ascii c in
  (((65 <=? n) && (n <=? 90)) ||
   ((192 <=? n) && (n <=? 222) && negb (n =? 215)))%N.

Definition lower_char (c : ascii) : ascii :=
  if is_upper c then ascii_of_N (N_of_ascii c + 32) else c.

(** [s.lower()] *)
Fixpoint py_lower (s : string) : string :=
  match s with
  | EmptyString => EmptyString
  | String c rest => String (lower_char c) (py_lower rest)
  end.

Fixpoint lstrip (s : string) : string :=
  match s with
  | EmptyString => EmptyString
  | String c rest => if is_space c then lstrip rest else s
  end.

Fixpoint rstrip (s : string) : string :=
  match s with
  | EmptyString => EmptyString
  | String c rest =>
      match rstrip rest with
      | EmptyString => if is_space c then EmptyString else String c EmptyString
      | kept => String c kept
      end
  end.

(** [s.strip()] *)
Definition py_strip (s : string) : string := rstrip (lstrip s).

(** [original_key.strip().lower()], line 15. *)
Definition normalise_key (original_key : string) : string :=
  py_lower (py_strip original_key).

(** [d[k] = v]: the entry of [k] gets the value [v] where it stands; a new
    key goes to the end. *)
Fixpoint dict_set (k : string) (v : json) (fields : list (string * json))
  : list (string * json) :=
  match fields with
  | [] => [(k, v)]
  | (k', v') :: rest =>
      if String.eqb k k' then (k', v) :: rest else (k', v') :: dict_set k v rest
  end.

(** [d.get(k, default)] *)
Definition dict_get_default (k : string) (default : json)
    (fields : list (string * json)) : json :=
  match dict_get k fields with
  | Some v => v
  | None => default
  end.

(** The body of the loop, lines 13-16, on one item; [None] is the
    [AttributeError] of an item without [get] (anything but a dict) or of
    a ["Key"] without [strip] (anything but a str). *)
Definition normalise_item (item : json) : option json :=
  match item with
  | JObj fields =>
      match dict_get_default "Key" (JStr EmptyString) fields with
      | JStr original_key =>
          Some (JObj (dict_set "Key" (JStr (normalise_key original_key)) fields))
      | _ => None
      end
  | _ => None
  end.

(** The loop of lines 12-16 over the items, in order. *)
Fixpoint normalise_items (items : list json) : option (list json) :=
  match items with
  | [] => Some []
  | item :: rest =>
      match normalise_item item with
      | None => None
      | Some item' =>
          match normalise_items rest with
          | None => None
          | Some rest' => Some (item' :: rest')
          end
      end
  end.

(** Lines 9-21: the document written to [normalised_data.json]; [None]
    when the loop raises, in which case the output file is not even
    opened. The items of a list are updated in place; the keys of a dict
    and the characters of a str, which the loop would visit as well, have
    no [get]. *)
Definition main (data : json) : option json :=
  match py_iter data with
  | None => None
  | Some items =>
      match normalise_items items with
      | None => None
      | Some items' =>
          Some (match data with JArr _ => JArr items' | _ => data end)
      end
  end.


(** The key the loop reads from a dict. *)
Definition original_key (fields : list (string * json)) : json :=
  dict_get_default "Key" (JStr EmptyString) fields.

Definition all_space (s : string) : Prop :=
  Forall (fun c => is_space c = true) (list_ascii_of_string s).

End Normalise.

(** * Proofs *)

(** ** Facts about event sequences *)

Lemma weight_app w (a b : list event) : weight w (a ++ b) = weight w a + weight w b.
Proof. induction a as [|e a IH]; simpl; [reflexivity | rewrite IH; lia]. Qed.

Lemma weight_nonneg w (tr : list event) :
  (forall e, 0 <= w e) -> 0 <= weight w tr.
Proof. intros Hw. induction tr as [|e tr IH]; simpl; [lia | specialize (Hw e); lia]. Qed.

Lemma weight_zero w (tr : list event) :
  Forall (fun e => w e = 0) tr -> weight w tr = 0.
Proof. induction 1 as [|e tr He _ IH]; simpl; lia. Qed.

Lemma sumZ_cons x (l : list Z) : sumZ (x :: l) = x + sumZ l.
Proof. reflexivity. Qed.

Lemma sumZ_app (a b : list Z) : sumZ (a ++ b) = sumZ a + sumZ b.
Proof. induction a as [|x a IH]; simpl; [reflexivity | rewrite IH; lia]. Qed.

Lemma writes_weight w (tr : list event) :
  (forall o, w (EWrite o) = 0) -> Forall is_write_event tr -> weight w tr = 0.
Proof.
  intros Hw Htr. apply weight_zero.
  eapply Forall_impl; [exact Htr |]. intros e [o ->]. apply Hw.
Qed.

Lemma write_players_writes players :
  Forall is_write_event (fst (write_players players)).
Proof.
  induction players as [|p rest IH]; simpl; [constructor |].
  destruct (make_player_obj p) as [o|]; [| constructor].
  destruct (write_players rest) as [w ok]; simpl in *.
  constructor; [exists o; reflexivity | exact IH].
Qed.

Create HintDb fetch.
#[local] Hint Constructors tail_shape : fetch.

Lemma handle_shape page attempt e x :
  tail_shape page attempt e (fst (handle page attempt e x)) (snd (handle page attempt e x)).
Proof.
  unfold handle, sleep.
  destruct x; repeat case_match; simpl; auto with fetch.
  apply ts_gave_up; [assumption | by apply Nat.eqb_eq].
Qed.

Lemma on_response_shape page attempt e status body :
  exists w tl sg,
    on_response page attempt e status body = (w ++ tl, sg) /\
    Forall is_write_event w /\ tail_shape page attempt e tl sg.
Proof.
  pose proof (handle_shape page attempt e) as Hh.
  assert (Hdirect : forall x, exists w tl sg,
             handle page attempt e x = (w ++ tl, sg) /\
             Forall is_write_event w /\ tail_shape page attempt e tl sg).
  { intros x. exists [], (fst (handle page attempt e x)), (snd (handle page attempt e x)).
    split; [by destruct (handle page attempt e x) | split; [constructor | apply Hh]]. }
  assert (Hsleep : forall d, exists w tl sg,
             sleep e d ([], Continue) = (w ++ tl, sg) /\
             Forall is_write_event w /\ tail_shape page attempt e tl sg).
  { intros d. unfold sleep. destruct (slept e) eqn:Hs.
    - exists [], [ESleep d], Continue. auto with fetch.
    - exists [], [ESleep d], Raise. auto with fetch. }
  unfold on_response.
  destruct (status =? 429); [apply Hsleep |].
  destruct (negb (is_2xx status)); [apply Hsleep |].
  destruct body as [data|x]; [| apply Hdirect].
  destruct (expected_keys data) as [[|]|]; [| | apply Hdirect].
  - destruct (results_of data) as [results|]; [| apply Hdirect].
    destruct (py_iter results) as [players|]; [| apply Hdirect].
    pose proof (write_players_writes players) as Hw.
    destruct (write_players players) as [w ok]; simpl in Hw.
    destruct ok.
    + exists w, [], (Return ExSuccess). rewrite app_nil_r. auto with fetch.
    + specialize (Hh OtherException).
      destruct (handle page attempt e OtherException) as [h sg]. by exists w, h, sg.
  - exists [], [EAppend page], (Return ExMalformed). auto with fetch.
Qed.

(** One iteration that got the permit: the permit, the request, the lines
    written, a tail, the release. *)
Lemma run_attempt_shape page attempt e :
  (acquired e = false /\ run_attempt page attempt e = ([], Raise)) \/
  (acquired e = true /\ exists w tl sg,
     run_attempt page attempt e = (EAcquire :: EGet :: w ++ tl ++ [ERelease], sg) /\
     Forall is_write_event w /\ tail_shape page attempt e tl sg).
Proof.
  unfold run_attempt. destruct (acquired e); [right | left; auto].
  split; [reflexivity |]. unfold attempt_body.
  assert (exists w tl sg,
     match got e with
     | Response status body => on_response page attempt e status body
     | GetRaised x => handle page attempt e x
     end = (w ++ tl, sg) /\
     Forall is_write_event w /\ tail_shape page attempt e tl sg) as (w & tl & sg & -> & Hw & Ht).
  { destruct (got e) as [status body|x]; [apply on_response_shape |].
    exists [], (fst (handle page attempt e x)), (snd (handle page attempt e x)).
    split; [by destruct (handle page attempt e x) |].
    split; [constructor | apply handle_shape]. }
  exists w, tl, sg. simpl. by rewrite <- app_assoc.
Qed.

Lemma run_attempt_appends q page attempt e :
  weight (appends q) (fst (run_attempt page attempt e)) =
  match snd (run_attempt page attempt e) with
  | Return x => own q page (exit_recorded x)
  | Continue | Raise => 0
  end.
Proof.
  destruct (run_attempt_shape page attempt e)
    as [[_ ->] | [_ (w & tl & sg & -> & Hw & Ht)]]; [reflexivity |].
  cbn [fst snd weight appends fold_right]. fold (weight (appends q) (w ++ tl ++ [ERelease])).
  rewrite weight_app, (writes_weight _ w) by (auto; reflexivity).
  unfold own. destruct Ht; simpl; destruct (Nat.eqb q page); reflexivity.
Qed.

Lemma scoped_writes w rest :
  Forall is_write_event w -> scoped true (w ++ rest) = scoped true rest.
Proof. induction 1 as [|e w [o ->] _ IH]; simpl; auto. Qed.

Lemma run_attempt_scoped page attempt e rest :
  scoped false (fst (run_attempt page attempt e) ++ rest) = scoped false rest.
Proof.
  destruct (run_attempt_shape page attempt e)
    as [[_ ->] | [_ (w & tl & sg & -> & Hw & Ht)]]; [reflexivity |].
  cbn [fst]. rewrite <- !app_comm_cons. cbn [scoped negb andb].
  rewrite <- !app_assoc, scoped_writes by assumption.
  destruct Ht; reflexivity.
Qed.

Lemma fetch_loop_scoped page env attempts :
  scoped false (fst (fetch_loop page env attempts)) = true.
Proof.
  induction attempts as [|a rest IH]; simpl; [reflexivity |].
  pose proof (run_attempt_scoped page a (env a)) as Ha.
  destruct (run_attempt page a (env a)) as [tr sg]; simpl in Ha.
  destruct sg as [|x|].
  - destruct (fetch_loop page env rest) as [tr' x]; simpl in *. by rewrite Ha.
  - simpl. by rewrite <- (app_nil_r tr), Ha.
  - simpl. by rewrite <- (app_nil_r tr), Ha.
Qed.

Lemma fetch_loop_appends q page env attempts :
  weight (appends q) (fst (fetch_loop page env attempts)) =
  own q page (exit_recorded (snd (fetch_loop page env attempts))).
Proof.
  induction attempts as [|a rest IH]; simpl.
  - unfold own. destruct (Nat.eqb q page); reflexivity.
  - pose proof (run_attempt_appends q page a (env a)) as Ha.
    pose proof (run_attempt_shape page a (env a)) as Hs.
    destruct (run_attempt page a (env a)) as [tr sg]; simpl in Ha.
    destruct sg as [|x|].
    + destruct (fetch_loop page env rest) as [tr' x]; simpl in *.
      rewrite weight_app. lia.
    + exact Ha.
    + simpl. rewrite Ha. unfold own. destruct (Nat.eqb q page); reflexivity.
Qed.

(** The permits held after a prefix of a scoped sequence, and what the
    rest of the sequence then looks like. *)
Lemma scoped_prefix (done pending : list event) (h : bool) :
  scoped h (done ++ pending) = true ->
  exists h', Z.b2z h + holds done = Z.b2z h' /\ scoped h' pending = true.
Proof.
  revert h. induction done as [|e done IH]; intros h H; simpl in H.
  - exists h. split; [unfold holds; simpl; lia | exact H].
  - unfold holds, weight in *.
    destruct e; destruct h; simpl in H; try discriminate;
      apply IH in H as (h' & Hh & Hs); exists h'; (split; [destruct h'; simpl in *; lia | exact Hs]).
Qed.

Lemma scoped_holds (done pending : list event) :
  scoped false (done ++ pending) = true ->
  (holds done = 0 /\ scoped false pending = true) \/
  (holds done = 1 /\ scoped true pending = true).
Proof.
  intros H. apply scoped_prefix in H as ([|] & Hh & Hs); simpl in Hh; [right | left]; auto.
Qed.

(** ** Invariants of the event loop *)

Lemma step_spec i s s' :
  step i s = Some s' ->
  exists t e rest,
    tasks s !! i = Some t /\ t_pending t = e :: rest /\
    (e = EAcquire -> 0 < sem s) /\
    sem s' = sem s - permit e /\
    out_file s' = out_file s ++ written e /\
    failed_attempts s' = failed_attempts s ++ appended e /\
    tasks s' = <[i := advance t e rest]> (tasks s).
Proof.
  unfold step. destruct (tasks s !! i) as [t|] eqn:Ht; [| discriminate].
  destruct (t_pending t) as [|e rest] eqn:Hp; [discriminate |].
  destruct (exec e s) as [s1|] eqn:He; [| discriminate].
  intros [= <-]. exists t, e, rest.
  destruct e; simpl in He; try destruct (0 <? sem s) eqn:Hs; simplify_eq; simpl;
    rewrite ?app_nil_r; repeat split; try discriminate; try assumption; try lia.
Qed.

Lemma total_advance w (ts : list task) i t e rest :
  ts !! i = Some t ->
  total w (<[i := advance t e rest]> ts) = total w ts + w e.
Proof.
  unfold total. revert i. induction ts as [|t0 ts IH]; intros [|i] H; simpl in H;
    try discriminate.
  - injection H as ->. simpl. rewrite weight_app. simpl. lia.
  - simpl. rewrite (IH i H). lia.
Qed.

Lemma origin_advance (ts : list task) i t e rest :
  ts !! i = Some t -> t_pending t = e :: rest ->
  map origin (<[i := advance t e rest]> ts) = map origin ts.
Proof.
  revert i. induction ts as [|t0 ts IH]; intros [|i] H Hp; simpl in H;
    try discriminate.
  - injection H as ->. simpl. f_equal. unfold origin. simpl.
    by rewrite Hp, <- app_assoc.
  - simpl. f_equal. by apply IH.
Qed.

Lemma recorded_append p (l : list nat) e :
  Z.of_nat (count_occ Nat.eq_dec (l ++ appended e) p) =
  Z.of_nat (count_occ Nat.eq_dec l p) + appends p e.
Proof.
  rewrite count_occ_app.
  destruct e; simpl; try lia.
  destruct (Nat.eq_dec page p) as [->|Hne].
  - rewrite Nat.eqb_refl. lia.
  - destruct (Nat.eqb_spec p page); [congruence | lia].
Qed.

Section Run.

Variable n_pages : nat.
Variable capacity : Z.
Variable envs : environment.

Lemma total_spawned w (ps : list nat) : total w (map (spawn envs) ps) = 0.
Proof.
  unfold total. induction ps as [|p ps IH]; simpl; [reflexivity |].
  rewrite IH. unfold spawn. by destruct (fetch_page p (envs p)).
Qed.

Lemma init_invariant : 0 <= capacity -> invariant n_pages capacity envs (init n_pages capacity envs).
Proof.
  intros Hc. split; simpl; rewrite ?total_spawned; try lia; try reflexivity.
  intros p. unfold recorded. simpl. by rewrite total_spawned.
Qed.

Lemma step_invariant i s s' : invariant n_pages capacity envs s -> step i s = Some s' -> invariant n_pages capacity envs s'.
Proof.
  intros [Hsem Hper Hled Hlin Hor] Hstep.
  apply step_spec in Hstep as (t & e & rest & Ht & Hp & Hacq & Hs & Ho & Hf & Hts).
  split.
  - rewrite Hs. destruct e; simpl; try lia. specialize (Hacq eq_refl). lia.
  - rewrite Hs, Hts, (total_advance _ _ _ _ _ _ Ht). lia.
  - intros p. unfold recorded. rewrite Hf, Hts, (total_advance _ _ _ _ _ _ Ht).
    rewrite recorded_append. specialize (Hled p). unfold recorded in Hled. lia.
  - rewrite Ho, Hts, (total_advance _ _ _ _ _ _ Ht), length_app, Nat2Z.inj_add.
    destruct e; simpl; lia.
  - rewrite Hts, (origin_advance _ _ _ _ _ Ht Hp). exact Hor.
Qed.

Lemma run_invariant sched s s' : invariant n_pages capacity envs s -> run sched s = Some s' -> invariant n_pages capacity envs s'.
Proof.
  revert s. induction sched as [|i sched IH]; intros s Hinv Hrun; simpl in Hrun.
  - by injection Hrun as <-.
  - destruct (step i s) as [s1|] eqn:Hstep; [| discriminate].
    eapply IH; [eapply step_invariant |]; eassumption.
Qed.

Lemma reachable_invariant sched s :
  0 <= capacity -> run sched (init n_pages capacity envs) = Some s -> invariant n_pages capacity envs s.
Proof. intros Hc. apply run_invariant, init_invariant, Hc. Qed.

(** Every task of a reachable state is a page's [fetch_page] in progress. *)
Lemma task_origin s (t : task) :
  invariant n_pages capacity envs s -> In t (tasks s) ->
  In (t_page t) (pages n_pages) /\
  t_exit t = exit_of envs (t_page t) /\
  t_done t ++ t_pending t = trace_of envs (t_page t).
Proof.
  intros Hinv Hin.
  assert (In (origin t) (map origin (map (spawn envs) (pages n_pages)))) as Ho.
  { rewrite <- (inv_origin _ _ _ _ Hinv). by apply in_map. }
  rewrite map_map in Ho. apply in_map_iff in Ho as (p & Hp & Hin').
  unfold origin, spawn, exit_of, trace_of in *.
  destruct (fetch_page p (envs p)) as [tr x] eqn:Hf. simpl in Hp.
  injection Hp as Hp1 Hp2 Hp3. rewrite <- Hp1, Hf. simpl. auto.
Qed.

Lemma task_scoped s (t : task) :
  invariant n_pages capacity envs s -> In t (tasks s) ->
  (holds (t_done t) = 0 /\ scoped false (t_pending t) = true) \/
  (holds (t_done t) = 1 /\ scoped true (t_pending t) = true).
Proof.
  intros Hinv Hin. apply scoped_holds.
  destruct (task_origin s t Hinv Hin) as (_ & _ & ->).
  apply fetch_loop_scoped.
Qed.

Lemma holders_total (ts : list task) :
  (forall t, In t ts -> holds (t_done t) = 0 \/ holds (t_done t) = 1) ->
  total permit ts =
  Z.of_nat (length (List.filter (fun t => 0 <? holds (t_done t)) ts)).
Proof.
  unfold total. induction ts as [|t ts IH]; intros H; [reflexivity |].
  cbn [map sumZ fold_right List.filter].
  fold (sumZ (map (fun t => weight permit (t_done t)) ts)).
  rewrite IH by (intros t' Ht'; apply H; by right).
  fold (holds (t_done t)).
  destruct (H t (or_introl eq_refl)) as [-> | ->]; simpl; lia.
Qed.

Lemma in_flight_total s :
  invariant n_pages capacity envs s -> total permit (tasks s) = Z.of_nat (in_flight s).
Proof.
  intros Hinv. apply holders_total. intros t Ht.
  destruct (task_scoped s t Hinv Ht) as [[-> _] | [-> _]]; auto.
Qed.

(** Once every task has ended, a measure summed over the tasks is the
    measure of the pages' whole event sequences. *)
Lemma finished_total w s :
  invariant n_pages capacity envs s -> finished s = true ->
  total w (tasks s) =
  sumZ (map (fun p => weight w (trace_of envs p)) (pages n_pages)).
Proof.
  intros Hinv Hfin.
  assert (total w (tasks s) =
          sumZ (map (fun o => weight w (snd o)) (map origin (tasks s)))) as ->.
  { unfold finished in Hfin. unfold total. rewrite map_map.
    induction (tasks s) as [|t ts IH]; [reflexivity |].
    simpl in Hfin. apply andb_prop in Hfin as [Ht Hts].
    simpl. rewrite (IH Hts). unfold task_finished in Ht.
    destruct (t_pending t); [by rewrite app_nil_r | discriminate]. }
  rewrite (inv_origin _ _ _ _ Hinv), !map_map. f_equal. apply map_ext.
  intros p. unfold origin, spawn, trace_of.
  by destruct (fetch_page p (envs p)).
Qed.

Lemma sum_own p (c : nat -> Z) a n :
  sumZ (map (fun q => own p q (c q)) (seq a n)) =
  if (a <=? p)%nat && (p <? a + n)%nat then c p else 0.
Proof.
  revert a. induction n as [|n IH]; intros a; simpl.
  - destruct (Nat.leb_spec a p), (Nat.ltb_spec p (a + 0)); simpl; auto; lia.
  - rewrite IH. unfold own.
    destruct (Nat.eqb_spec p a) as [->|Hne].
    + rewrite Nat.leb_refl.
      destruct (Nat.leb_spec (S a) a), (Nat.ltb_spec a (a + S n)); simpl; lia.
    + destruct (Nat.leb_spec (S a) p), (Nat.leb_spec a p),
        (Nat.ltb_spec p (S a + n)), (Nat.ltb_spec p (a + S n)); simpl; lia.
Qed.

(** The ledger after the run: each page of the range as often as its exit
    says, and nothing else. *)
Lemma final_ledger sched s p :
  0 <= capacity ->
  run sched (init n_pages capacity envs) = Some s -> finished s = true ->
  recorded p s = if in_range n_pages p then exit_recorded (exit_of envs p) else 0.
Proof.
  intros Hc Hrun Hfin. pose proof (reachable_invariant _ _ Hc Hrun) as Hinv.
  rewrite (inv_ledger _ _ _ _ Hinv), (finished_total _ _ Hinv Hfin).
  rewrite (map_ext _ (fun q => own p q (exit_recorded (exit_of envs q)))).
  - unfold pages, in_range. rewrite sum_own.
    destruct (Nat.leb_spec 1 p), (Nat.ltb_spec p (1 + n_pages)),
      (Nat.leb_spec p n_pages); simpl; auto; lia.
  - intros q. apply fetch_loop_appends.
Qed.

(** *** Progress and termination of the event loop *)

Lemma remaining_advance (ts : list task) i t e rest :
  ts !! i = Some t -> t_pending t = e :: rest ->
  S (fold_right (fun t acc => (length (t_pending t) + acc)%nat) 0%nat
       (<[i := advance t e rest]> ts)) =
  fold_right (fun t acc => (length (t_pending t) + acc)%nat) 0%nat ts.
Proof.
  revert i. induction ts as [|t0 ts IH]; intros [|i] H Hp; simpl in H;
    try discriminate.
  - injection H as ->. simpl. rewrite Hp. simpl. lia.
  - simpl. rewrite <- (IH i H Hp). lia.
Qed.

Lemma step_remaining i s s' : step i s = Some s' -> S (remaining s') = remaining s.
Proof.
  intros Hstep.
  apply step_spec in Hstep as (t & e & rest & Ht & Hp & _ & _ & _ & _ & Hts).
  unfold remaining. rewrite Hts. by apply remaining_advance.
Qed.

Lemma step_enabled i s t e rest :
  tasks s !! i = Some t -> t_pending t = e :: rest ->
  (e = EAcquire -> 0 < sem s) -> exists s', step i s = Some s'.
Proof.
  intros Ht Hp He. unfold step. rewrite Ht, Hp.
  destruct e; simpl; eauto.
  destruct (Z.ltb_spec 0 (sem s)); [eauto | specialize (He eq_refl); lia].
Qed.

Lemma unfinished_task (ts : list task) :
  forallb task_finished ts = false ->
  exists i t e rest, ts !! i = Some t /\ t_pending t = e :: rest.
Proof.
  induction ts as [|t ts IH]; simpl; [discriminate |].
  unfold task_finished at 1. destruct (t_pending t) as [|e rest] eqn:Hp.
  - simpl. intros H. destruct (IH H) as (i & t' & e & rest & Hi & Hp').
    exists (S i), t', e, rest. auto.
  - intros _. exists 0%nat, t, e, rest. auto.
Qed.

Lemma holder_task (ts : list task) :
  0 < total permit ts ->
  exists i t, ts !! i = Some t /\ 0 < holds (t_done t).
Proof.
  unfold total. induction ts as [|t ts IH]; simpl; [lia |].
  intros H. destruct (Z.ltb_spec 0 (holds (t_done t))) as [Hpos|Hle].
  - exists 0%nat, t. auto.
  - destruct IH as (i & t' & Hi & Ht'); [unfold holds in Hle; lia |].
    exists (S i), t'. auto.
Qed.

(** No deadlock: while a task is unfinished, some task can run. *)
Lemma progress s :
  0 < capacity -> invariant n_pages capacity envs s -> finished s = false ->
  exists i s', step i s = Some s'.
Proof.
  intros Hc Hinv Hfin.
  destruct (Z.ltb_spec 0 (sem s)) as [Hfree|Hfull].
  - apply unfinished_task in Hfin as (i & t & e & rest & Ht & Hp).
    exists i. eapply step_enabled; eauto.
  - pose proof (inv_permits _ _ _ _ Hinv) as Hper. pose proof (inv_sem _ _ _ _ Hinv) as Hsem.
    destruct (holder_task (tasks s)) as (i & t & Ht & Hh); [lia |].
    assert (In t (tasks s)) as Hin by (eapply list_elem_of_In, list_elem_of_lookup_2, Ht).
    destruct (task_scoped s t Hinv Hin) as [[H0 _] | [_ Hsc]]; [lia |].
    destruct (t_pending t) as [|e rest] eqn:Hp; [discriminate |].
    exists i. eapply step_enabled; eauto.
    intros ->. discriminate.
Qed.

Lemma run_app a b s :
  run (a ++ b) s = match run a s with Some s1 => run b s1 | None => None end.
Proof.
  revert s. induction a as [|i a IH]; intros s; simpl; [reflexivity |].
  destruct (step i s); [apply IH | reflexivity].
Qed.

(** Every state of the event loop can be run to the end, in exactly as
    many steps as there are events left. *)
Lemma completion s :
  0 < capacity -> invariant n_pages capacity envs s ->
  exists sched s',
    run sched s = Some s' /\ finished s' = true /\ length sched = remaining s.
Proof.
  intros Hc. remember (remaining s) as n eqn:Hn. revert s Hn.
  induction n as [|n IH]; intros s Hn Hinv.
  - destruct (finished s) eqn:Hfin; [exists [], s; auto |].
    destruct (progress s Hc Hinv Hfin) as (i & s1 & Hstep).
    apply step_remaining in Hstep. lia.
  - destruct (finished s) eqn:Hfin.
    + exfalso. unfold finished in Hfin. unfold remaining in Hn.
      induction (tasks s) as [|t ts IHts]; simpl in *; [discriminate |].
      apply andb_prop in Hfin as [Ht Hts]. unfold task_finished in Ht.
      destruct (t_pending t); [simpl in Hn; auto | discriminate].
    + destruct (progress s Hc Hinv Hfin) as (i & s1 & Hstep).
      destruct (IH s1) as (sched & s' & Hrun & Hfin' & Hlen).
      * apply step_remaining in Hstep. lia.
      * eapply step_invariant; eassumption.
      * exists (i :: sched), s'. simpl. rewrite Hstep. auto.
Qed.

(** *** The ledger in every state of the run *)

Lemma total_le_whole w (ts : list task) :
  (forall e, 0 <= w e) ->
  total w ts <= sumZ (map (fun o => weight w (snd o)) (map origin ts)).
Proof.
  intros Hw. unfold total. rewrite map_map.
  induction ts as [|t ts IH]; [simpl; lia |].
  rewrite !map_cons, !sumZ_cons.
  change (weight w (snd (origin t))) with (weight w (t_done t ++ t_pending t)).
  rewrite weight_app. pose proof (weight_nonneg w (t_pending t) Hw). lia.
Qed.

Lemma appends_nonneg p e : 0 <= appends p e.
Proof. destruct e; simpl; try lia. destruct (Nat.eqb p page); lia. Qed.

(** A page is never in the ledger more often than its exit says. *)
Lemma ledger_bound s p :
  invariant n_pages capacity envs s ->
  0 <= recorded p s <= if in_range n_pages p then exit_recorded (exit_of envs p) else 0.
Proof.
  intros Hinv. split; [unfold recorded; lia |].
  rewrite (inv_ledger _ _ _ _ Hinv).
  etransitivity; [apply total_le_whole, appends_nonneg |].
  rewrite (inv_origin _ _ _ _ Hinv), !map_map.
  rewrite (map_ext _ (fun q => own p q (exit_recorded (exit_of envs q)))).
  - unfold pages, in_range. rewrite sum_own.
    destruct (Nat.leb_spec 1 p), (Nat.ltb_spec p (1 + n_pages)),
      (Nat.leb_spec p n_pages); simpl; lia.
  - intros q. unfold origin, spawn, exit_of.
    pose proof (fetch_loop_appends p q (envs q) (seq 0 max_attempts)) as H.
    fold (fetch_page q (envs q)) in H.
    destruct (fetch_page q (envs q)); exact H.
Qed.

Lemma recorded_In p s : In p (failed_attempts s) <-> 0 < recorded p s.
Proof.
  unfold recorded. rewrite (count_occ_In Nat.eq_dec). lia.
Qed.

Lemma sumZ_add {A} (f g : A -> Z) (l : list A) :
  sumZ (map (fun x => f x + g x) l) = sumZ (map f l) + sumZ (map g l).
Proof. induction l as [|x l IH]; simpl; lia. Qed.

(** The length of a list of pages of the range, page by page. *)
Lemma length_by_page (l : list nat) :
  (forall x, In x l -> in_range n_pages x = true) ->
  Z.of_nat (length l) =
  sumZ (map (fun p => Z.of_nat (count_occ Nat.eq_dec l p)) (pages n_pages)).
Proof.
  induction l as [|x l IH]; intros Hl.
  - simpl. induction (pages n_pages); simpl; lia.
  - rewrite (map_ext _ (fun p => own x p 1 + Z.of_nat (count_occ Nat.eq_dec l p))).
    + rewrite sumZ_add, <- IH by (intros y Hy; apply Hl; by right).
      unfold pages. rewrite (sum_own x (fun _ => 1)).
      specialize (Hl x (or_introl eq_refl)). unfold in_range in Hl.
      destruct (Nat.leb_spec 1 x), (Nat.ltb_spec x (1 + n_pages)),
        (Nat.leb_spec x n_pages); simpl in *; try discriminate; try lia.
    + intros p. simpl. unfold own.
      destruct (Nat.eq_dec x p) as [->|Hne].
      * rewrite Nat.eqb_refl. lia.
      * destruct (Nat.eqb_spec x p); [congruence | lia].
Qed.

End Run.

(** * The claims *)

(** ** Backoff *)

Lemma pow2_increasing (a b : nat) : (a < b)%nat -> 2 ^ Z.of_nat a < 2 ^ Z.of_nat b.
Proof. intros H. apply Z.pow_lt_mono_r; lia. Qed.

(** C2. The wait of a failed attempt depends on the attempt index and the
    failure kind only: an attempt that meets a failure of kind [k] performs
    exactly one sleep, of [5 * 2^attempt] seconds for a rate limit and of
    [2^attempt] seconds for a server error or a generic failure, and both
    waits grow strictly with the attempt index. *)
Theorem backoff_policy (page a b : nat) (e : attempt_env) (k : failure_kind) :
  (a < b)%nat ->
  acquired e = true ->
  failure_kind_of (got e) = Some k ->
  fst (run_attempt page a e) =
    [EAcquire; EGet; ESleep (spec_delay a k); ERelease] /\
  rate_limit_wait a = 5 * 2 ^ Z.of_nat a /\
  retry_wait a = 2 ^ Z.of_nat a /\
  rate_limit_wait a < rate_limit_wait b /\
  retry_wait a < retry_wait b.
Proof.
  intros Hab Hacq Hk. pose proof (pow2_increasing a b Hab) as Hpow.
  split; [| unfold rate_limit_wait, retry_wait; repeat split; lia].
  unfold run_attempt, attempt_body. rewrite Hacq.
  unfold failure_kind_of in Hk. unfold on_response, handle, sleep.
  destruct (got e) as [status body|x].
  - destruct (status =? 429).
    { injection Hk as <-. by destruct (slept e). }
    destruct (negb (is_2xx status)).
    { injection Hk as <-. by destruct (slept e). }
    destruct body as [data|[st| | | |]]; try discriminate.
    + destruct (is_5xx st); [| discriminate]. injection Hk as <-. by destruct (slept e).
    + injection Hk as <-. by destruct (slept e).
    + injection Hk as <-. by destruct (slept e).
    + injection Hk as <-. by destruct (slept e).
  - destruct x as [st| | | |]; try discriminate.
    + destruct (is_5xx st); [| discriminate]. injection Hk as <-. by destruct (slept e).
    + injection Hk as <-. by destruct (slept e).
    + injection Hk as <-. by destruct (slept e).
    + injection Hk as <-. by destruct (slept e).
Qed.

Lemma backoff_policy_witness :
  fst (run_attempt 7 2 (answered (Response 429 (JsonData JNull)))) =
    [EAcquire; EGet; ESleep 20; ERelease] /\
  rate_limit_wait 2 = 5 * 2 ^ Z.of_nat 2 /\
  retry_wait 2 = 2 ^ Z.of_nat 2 /\
  rate_limit_wait 2 < rate_limit_wait 3 /\
  retry_wait 2 < retry_wait 3.
Proof.
  apply (backoff_policy 7 2 3 (answered (Response 429 (JsonData JNull))) RateLimited);
    [lia | reflexivity | reflexivity].
Defined.

(** ** Exhaustion *)

Lemma run_attempt_500 page attempt e :
  answers_500 e -> run_attempt page attempt e = (retry_events attempt, Continue).
Proof.
  intros (Ha & Hs & body & Hg).
  unfold run_attempt, attempt_body, on_response, sleep. by rewrite Ha, Hg, Hs.
Qed.

Lemma fetch_loop_500 page env attempts :
  (forall a, In a attempts -> answers_500 (env a)) ->
  fetch_loop page env attempts =
    (flat_map retry_events attempts ++ [EAppend page], ExExhausted).
Proof.
  induction attempts as [|a rest IH]; intros H; [reflexivity |].
  cbn [fetch_loop flat_map].
  rewrite (run_attempt_500 page a (env a)) by (apply H; by left).
  rewrite IH by (intros a' Ha'; apply H; by right).
  by rewrite <- app_assoc.
Qed.

(** C3. A page whose every attempt is answered with status 500 performs
    exactly [max_attempts] requests, each followed by the server-error
    wait of its attempt index, and is then appended to the failure ledger
    once; the total wait is at least the sum of the first
    [max_attempts - 1] server-error waits. *)
Theorem exhaustion_on_500 (page : nat) (env : nat -> attempt_env) :
  (forall a, (a < max_attempts)%nat -> answers_500 (env a)) ->
  fetch_page page env =
    (flat_map retry_events (seq 0 max_attempts) ++ [EAppend page], ExExhausted) /\
  weight is_get (fst (fetch_page page env)) = Z.of_nat max_attempts /\
  weight (appends page) (fst (fetch_page page env)) = 1 /\
  sumZ (map retry_wait (seq 0 (max_attempts - 1))) <=
    weight slept_for (fst (fetch_page page env)).
Proof.
  intros H.
  assert (fetch_page page env =
    (flat_map retry_events (seq 0 max_attempts) ++ [EAppend page], ExExhausted)) as ->.
  { apply fetch_loop_500. intros a Ha. apply H. apply in_seq in Ha. lia. }
  split; [reflexivity |]. cbn [fst].
  repeat split.
  - simpl. by rewrite Nat.eqb_refl.
  - vm_compute. discriminate.
Qed.

Lemma exhaustion_on_500_witness :
  fetch_page 3 (fun _ => answered (Response 500 (JsonData JNull))) =
    (flat_map retry_events (seq 0 max_attempts) ++ [EAppend 3%nat], ExExhausted) /\
  weight is_get (fst (fetch_page 3 (fun _ => answered (Response 500 (JsonData JNull))))) =
    Z.of_nat max_attempts /\
  weight (appends 3) (fst (fetch_page 3 (fun _ => answered (Response 500 (JsonData JNull))))) = 1 /\
  sumZ (map retry_wait (seq 0 (max_attempts - 1))) <=
    weight slept_for (fst (fetch_page 3 (fun _ => answered (Response 500 (JsonData JNull))))).
Proof.
  apply (exhaustion_on_500 3 (fun _ => answered (Response 500 (JsonData JNull)))).
  intros a _. repeat split. by exists (JsonData JNull).
Defined.

(** ** Malformed bodies *)

Lemma dict_get_has_key k fields v :
  dict_get k fields = Some v -> has_key k fields = true.
Proof.
  induction fields as [|[k' v'] fields IH]; simpl; [discriminate |].
  destruct (String.eqb k k'); simpl; auto.
Qed.

(** The bodies for which the test of line 52 is [False]: a dict without
    ['standings'], or one whose ['standings'] is a dict without
    ['results']. *)
Lemma expected_keys_missing fields :
  (has_key "standings" fields = false -> expected_keys (JObj fields) = Some false) /\
  (forall inner, dict_get "standings" fields = Some (JObj inner) ->
     has_key "results" inner = false -> expected_keys (JObj fields) = Some false).
Proof.
  unfold expected_keys. split.
  - intros H. simpl. by rewrite H.
  - intros inner Hg Hr. simpl. rewrite (dict_get_has_key _ _ _ Hg), Hg. simpl.
    by rewrite Hr.
Qed.

(** C4, as amended. When an attempt receives a 2xx response on whose body
    the key test of line 52 evaluates to [False], the loop ends with that
    attempt: the page is appended to the failure ledger, nothing is slept
    and no further attempt is made; when it is the first attempt, this is
    all the task does. *)
Theorem malformed_body_no_retry (page : nat) (env : nat -> attempt_env)
    (attempt : nat) (rest : list nat) (status : Z) (data : json) :
  acquired (env attempt) = true ->
  got (env attempt) = Response status (JsonData data) ->
  is_2xx status = true ->
  expected_keys data = Some false ->
  fetch_loop page env (attempt :: rest) = (malformed_events page, ExMalformed) /\
  (attempt = 0%nat -> fetch_page page env = (malformed_events page, ExMalformed)) /\
  weight is_get (malformed_events page) = 1 /\
  weight slept_for (malformed_events page) = 0.
Proof.
  intros Ha Hg H2 Hk.
  assert (run_attempt page attempt (env attempt) =
          (malformed_events page, Return ExMalformed)) as Hrun.
  { unfold run_attempt, attempt_body, on_response. rewrite Ha, Hg, H2, Hk.
    unfold is_2xx in H2. apply andb_prop in H2 as [Hlo Hhi].
    destruct (Z.eqb_spec status 429) as [->|_]; [discriminate | reflexivity]. }
  split; [simpl; by rewrite Hrun |].
  split; [| split; reflexivity].
  intros ->. unfold fetch_page. simpl. by rewrite Hrun.
Qed.

Lemma malformed_body_no_retry_witness :
  fetch_loop 9 (fun _ => answered (Response 200 (JsonData (JObj [])))) [0%nat; 1%nat] =
    (malformed_events 9, ExMalformed) /\
  (0%nat = 0%nat ->
   fetch_page 9 (fun _ => answered (Response 200 (JsonData (JObj [])))) =
     (malformed_events 9, ExMalformed)) /\
  weight is_get (malformed_events 9) = 1 /\
  weight slept_for (malformed_events 9) = 0.
Proof.
  apply (malformed_body_no_retry 9 (fun _ => answered (Response 200 (JsonData (JObj []))))
           0 [1%nat] 200 (JObj []));
    reflexivity.
Defined.

(** C4 as first stated fails on this body. The body [{"standings": null}]
    has no ['results'] under ['standings'], but the key test raises [TypeError] on it instead of evaluating to
    [False]: the page is retried like any unexpected error, with five
    requests and 31 seconds of backoff before it is recorded. *)
Lemma null_standings_is_retried :
  is_2xx 200 = true /\
  results_of null_standings = None /\
  expected_keys null_standings = None /\
  snd (fetch_page 1 (fun _ => answered (Response 200 (JsonData null_standings)))) =
    ExExhausted /\
  weight is_get
    (fst (fetch_page 1 (fun _ => answered (Response 200 (JsonData null_standings))))) = 5 /\
  weight slept_for
    (fst (fetch_page 1 (fun _ => answered (Response 200 (JsonData null_standings))))) = 31.
Proof. repeat split. Qed.

(** ** Cancellation *)

Lemma In_writes_sleep d (w : list event) :
  Forall is_write_event w -> ~ In (ESleep d) w.
Proof.
  induction 1 as [|e w [o ->] _ IH]; simpl; [tauto |].
  intros [H|H]; [discriminate | tauto].
Qed.

Lemma cancellation_raises page attempt e :
  receives_cancellation page attempt e ->
  snd (run_attempt page attempt e) = Raise.
Proof.
  intros [Ha | Ha Hg | status Ha H2 Hg | d Ha Hs Hin].
  - unfold run_attempt. by rewrite Ha.
  - unfold run_attempt, attempt_body. by rewrite Ha, Hg.
  - unfold run_attempt, attempt_body, on_response. rewrite Ha, Hg, H2.
    unfold is_2xx in H2. apply andb_prop in H2 as [Hlo Hhi].
    destruct (Z.eqb_spec status 429) as [->|_]; [discriminate | reflexivity].
  - destruct (run_attempt_shape page attempt e)
      as [[Ha' _] | [_ (w & tl & sg & Hrun & Hw & Ht)]]; [congruence |].
    rewrite Hrun in *. cbn [fst snd] in *.
    destruct Hin as [H|[H|Hin]]; try discriminate.
    apply in_app_or in Hin as [Hin|Hin]; [by apply In_writes_sleep in Hin |].
    destruct Ht; try congruence; simpl in Hin;
      repeat (destruct Hin as [Hin|Hin]; try discriminate); tauto.
Qed.

(** The loop up to the first attempt that does not continue. *)
Lemma fetch_loop_continue page env (before : list nat) (rest : list nat) :
  (forall j, In j before -> snd (run_attempt page j (env j)) = Continue) ->
  fetch_loop page env (before ++ rest) =
    (flat_map (fun j => fst (run_attempt page j (env j))) before
       ++ fst (fetch_loop page env rest),
     snd (fetch_loop page env rest)).
Proof.
  induction before as [|j before IH]; intros H.
  - simpl. by destruct (fetch_loop page env rest).
  - cbn [app fetch_loop flat_map].
    pose proof (H j (or_introl eq_refl)) as Hj.
    destruct (run_attempt page j (env j)) as [tr sg]. simpl in Hj. subst sg.
    rewrite IH by (intros j' Hj'; apply H; by right).
    cbn [fst snd]. by rewrite <- app_assoc.
Qed.

Lemma attempts_split k :
  (k < max_attempts)%nat ->
  seq 0 max_attempts = seq 0 k ++ k :: seq (S k) (max_attempts - S k).
Proof.
  intros H. replace max_attempts with (k + S (max_attempts - S k))%nat at 1 by lia.
  by rewrite seq_app.
Qed.

(** ** Runs of [main] *)

Lemma main_spec n_pages capacity envs sched sm s :
  main n_pages capacity envs sched = Some (sm, s) ->
  run sched (init n_pages capacity envs) = Some s /\
  finished s = true /\ sm = summarise n_pages s.
Proof.
  unfold main. destruct (run sched (init n_pages capacity envs)) as [s1|]; [| discriminate].
  destruct (finished s1) eqn:Hfin; [| discriminate].
  intros [= <- <-]. auto.
Qed.

Lemma not_recorded n_pages capacity envs sched s p :
  0 <= capacity ->
  run sched (init n_pages capacity envs) = Some s ->
  exit_recorded (exit_of envs p) = 0 -> ~ In p (failed_attempts s).
Proof.
  intros Hc Hrun Hx Hin. apply recorded_In in Hin.
  pose proof (ledger_bound n_pages capacity envs s p
                (reachable_invariant _ _ _ _ _ Hc Hrun)) as Hb.
  rewrite Hx in Hb. destruct (in_range n_pages p); lia.
Qed.

(** The run of the scenario: three lines, page 3 reported, two pages
    succeeded. *)
Example scenario_end_to_end :
  main 3 2 Scenario.envs Scenario.sched =
    Some ({| success_count := 2; failed_count := 1; failed_pages := [3%nat] |}, Scenario.final) /\
  length (out_file Scenario.final) = 3%nat.
Proof. split; reflexivity. Qed.

(** ** The rate gate *)

Lemma total_none_held (ts : list task) :
  (forall t, In t ts -> holds (t_done t) = 0) -> total permit ts = 0.
Proof.
  unfold total. induction ts as [|t ts IH]; intros H; [reflexivity |].
  rewrite map_cons, sumZ_cons, IH by (intros t' Ht'; apply H; by right).
  specialize (H t (or_introl eq_refl)). unfold holds in H. lia.
Qed.

Lemma finished_task_holds n_pages capacity envs s (t : task) :
  invariant n_pages capacity envs s -> In t (tasks s) ->
  task_finished t = true -> holds (t_done t) = 0.
Proof.
  intros Hinv Hin Hfin. unfold task_finished in Hfin.
  destruct (task_scoped _ _ _ s t Hinv Hin) as [[H _] | [_ H]]; [exact H |].
  destruct (t_pending t); discriminate.
Qed.

(** C5. With a semaphore of [capacity] permits, in every state of the run
    at most [capacity] tasks are past [acquire] and before [release], the
    counter is the capacity less those tasks, a task that has ended (by
    return or by exception) holds no permit, and when all have ended every
    permit is back; an attempt, however it ends, leaves the task without
    a permit, and each way through [fetch_page] pairs its acquires with
    releases. *)
Theorem rate_gate (n_pages : nat) (capacity : Z) (envs : environment)
    (sched : list nat) (s : state) :
  0 <= capacity ->
  run sched (init n_pages capacity envs) = Some s ->
  Z.of_nat (in_flight s) <= capacity /\
  sem s = capacity - Z.of_nat (in_flight s) /\
  (forall t, In t (tasks s) -> task_finished t = true -> holds (t_done t) = 0) /\
  (finished s = true -> sem s = capacity) /\
  (forall page attempt e, holds (fst (run_attempt page attempt e)) = 0) /\
  (forall page env, scoped false (fst (fetch_page page env)) = true).
Proof.
  intros Hc Hrun. pose proof (reachable_invariant _ _ _ _ _ Hc Hrun) as Hinv.
  pose proof (inv_permits _ _ _ _ Hinv) as Hper.
  pose proof (inv_sem _ _ _ _ Hinv) as Hsem.
  rewrite (in_flight_total _ _ _ _ Hinv) in Hper.
  repeat split; try lia.
  - intros t Hin Hfin. eapply finished_task_holds; eassumption.
  - intros Hfin. pose proof (inv_permits _ _ _ _ Hinv) as Hper'.
    rewrite total_none_held in Hper'; [lia |].
    intros t Hin. eapply finished_task_holds; try eassumption.
    unfold finished in Hfin. rewrite forallb_forall in Hfin. by apply Hfin.
  - intros page attempt e.
    pose proof (run_attempt_scoped page attempt e []) as Hs. simpl in Hs.
    destruct (scoped_holds _ _ Hs) as [[H0 _] | [_ H1]]; [exact H0 | discriminate].
  - intros page env. apply fetch_loop_scoped.
Qed.

Lemma rate_gate_witness :
  Z.of_nat (in_flight Scenario.midway) <= 2 /\
  sem Scenario.midway = 2 - Z.of_nat (in_flight Scenario.midway) /\
  (forall t, In t (tasks Scenario.midway) -> task_finished t = true ->
     holds (t_done t) = 0) /\
  (finished Scenario.midway = true -> sem Scenario.midway = 2) /\
  (forall page attempt e, holds (fst (run_attempt page attempt e)) = 0) /\
  (forall page env, scoped false (fst (fetch_page page env)) = true).
Proof.
  apply (rate_gate 3 2 Scenario.envs Scenario.opening Scenario.midway);
    [lia | reflexivity].
Defined.

(** With the permit in hand, the next semaphore operation is a release. *)
Lemma scoped_next_release (tr : list event) :
  scoped true tr = true ->
  exists mid post,
    tr = mid ++ ERelease :: post /\ forallb (fun e => negb (is_permit_event e)) mid = true.
Proof.
  induction tr as [|e tr IH]; simpl; [discriminate |].
  destruct e; try discriminate; simpl; intros H.
  - exists [], tr. auto.
  - destruct (IH H) as (mid & post & -> & Hmid). exists (EGet :: mid), post. auto.
  - destruct (IH H) as (mid & post & -> & Hmid). exists (ESleep d :: mid), post. auto.
  - destruct (IH H) as (mid & post & -> & Hmid). exists (EWrite o :: mid), post. auto.
  - destruct (IH H) as (mid & post & -> & Hmid). exists (EAppend page :: mid), post. auto.
Qed.

(** C10. A task that is inside a backoff sleep holds a permit: it is one
    of the tasks in flight, the semaphore counter is below the capacity,
    and the next thing the task does to the semaphore is the release at
    the end of the attempt. In the events of [fetch_page] every sleep comes
    after an acquire that has not been released yet. *)
Theorem backoff_holds_permit (n_pages : nat) (capacity : Z) (envs : environment)
    (sched : list nat) (s : state) (i : nat) (t : task) (d : Z) (rest : list event) :
  0 <= capacity ->
  run sched (init n_pages capacity envs) = Some s ->
  tasks s !! i = Some t ->
  t_pending t = ESleep d :: rest ->
  holds (t_done t) = 1 /\
  (1 <= in_flight s)%nat /\
  sem s <= capacity - 1 /\
  (exists mid post,
     rest = mid ++ ERelease :: post /\
     forallb (fun e => negb (is_permit_event e)) mid = true) /\
  (forall page env pre d' post,
     fst (fetch_page page env) = pre ++ ESleep d' :: post ->
     holds pre = 1 /\ scoped true post = true).
Proof.
  intros Hc Hrun Ht Hp. pose proof (reachable_invariant _ _ _ _ _ Hc Hrun) as Hinv.
  assert (In t (tasks s)) as Hin by (eapply list_elem_of_In, list_elem_of_lookup_2, Ht).
  assert (holds (t_done t) = 1 /\ scoped true rest = true) as [Hh Hsc].
  { destruct (task_scoped _ _ _ s t Hinv Hin) as [[_ H] | [H1 H]];
      rewrite Hp in H; simpl in H; [discriminate | auto]. }
  assert (1 <= in_flight s)%nat as Hfl.
  { unfold in_flight.
    assert (In t (List.filter (fun t => 0 <? holds (t_done t)) (tasks s))) as Hf.
    { apply filter_In. split; [exact Hin | by rewrite Hh]. }
    destruct (List.filter _ (tasks s)); [destruct Hf | simpl; lia]. }
  pose proof (inv_permits _ _ _ _ Hinv) as Hper.
  rewrite (in_flight_total _ _ _ _ Hinv) in Hper.
  repeat split; try assumption; try lia.
  - by apply scoped_next_release.
  - pose proof (fetch_loop_scoped page env (seq 0 max_attempts)) as Hs.
    fold (fetch_page page env) in Hs. rewrite H in Hs.
    destruct (scoped_holds _ _ Hs) as [[_ Hn] | [Hy _]]; [discriminate | exact Hy].
  - pose proof (fetch_loop_scoped page env (seq 0 max_attempts)) as Hs.
    fold (fetch_page page env) in Hs. rewrite H in Hs.
    destruct (scoped_holds _ _ Hs) as [[_ Hn] | [_ Hy]]; [discriminate | exact Hy].
Qed.

Lemma backoff_holds_permit_witness :
  holds (t_done sleeping_task) = 1 /\
  (1 <= in_flight Scenario.midway)%nat /\
  sem Scenario.midway <= 2 - 1 /\
  (exists mid post,
     [ERelease; EAcquire; EGet;
      EWrite {| full_name := JStr "Cy"; team_name := JStr "Greens"; player_id := JNum 21 |};
      ERelease] = mid ++ ERelease :: post /\
     forallb (fun e => negb (is_permit_event e)) mid = true) /\
  (forall page env pre d' post,
     fst (fetch_page page env) = pre ++ ESleep d' :: post ->
     holds pre = 1 /\ scoped true post = true).
Proof.
  apply (backoff_holds_permit 3 2 Scenario.envs Scenario.opening Scenario.midway
           1 sleeping_task 5);
    [lia | reflexivity | reflexivity | reflexivity].
Defined.

(** ** The orchestrator *)

Lemma spawned_pages envs (ps : list nat) : map t_page (map (spawn envs) ps) = ps.
Proof.
  induction ps as [|p ps IH]; simpl; [reflexivity |].
  rewrite IH. unfold spawn. by destruct (fetch_page p (envs p)).
Qed.

Lemma spawned_idle envs (ps : list nat) (t : task) :
  In t (map (spawn envs) ps) -> t_done t = [].
Proof.
  intros H. apply in_map_iff in H as (p & <- & _).
  unfold spawn. by destruct (fetch_page p (envs p)).
Qed.

(** C7. [main] creates the tasks of the pages 1 to [n_pages], one each and
    in this order, before any of them has run or taken a permit; from
    every state of the run the event loop can bring every task to its end,
    whatever the pages are answered; and a completed run of [main] has run
    every task to the end of [fetch_page] and yields the two counts and the
    list of failed pages taken from [failed_attempts] at that point. *)
Theorem orchestrator (n_pages : nat) (capacity : Z) (envs : environment) :
  0 < capacity ->
  map t_page (tasks (init n_pages capacity envs)) = seq 1 n_pages /\
  (forall t, In t (tasks (init n_pages capacity envs)) -> t_done t = []) /\
  sem (init n_pages capacity envs) = capacity /\
  (forall sched s,
     run sched (init n_pages capacity envs) = Some s ->
     exists rest sm s', main n_pages capacity envs (sched ++ rest) = Some (sm, s')) /\
  (forall sched sm s,
     main n_pages capacity envs sched = Some (sm, s) ->
     (forall t, In t (tasks s) ->
        t_pending t = [] /\ t_done t = trace_of envs (t_page t)) /\
     map t_page (tasks s) = seq 1 n_pages /\
     failed_pages sm = failed_attempts s /\
     failed_count sm = Z.of_nat (length (failed_attempts s)) /\
     success_count sm = Z.of_nat n_pages - failed_count sm).
Proof.
  intros Hc. split; [apply spawned_pages |].
  split; [intros t; apply spawned_idle |].
  split; [reflexivity |]. split.
  - intros sched s Hrun.
    assert (0 <= capacity) as Hc' by lia.
    pose proof (reachable_invariant _ _ _ _ _ Hc' Hrun) as Hinv.
    destruct (completion _ _ _ s Hc Hinv) as (rest & s' & Hrest & Hfin & _).
    exists rest, (summarise n_pages s'), s'.
    unfold main. by rewrite run_app, Hrun, Hrest, Hfin.
  - intros sched sm s Hmain. apply main_spec in Hmain as (Hrun & Hfin & ->).
    assert (0 <= capacity) as Hc' by lia.
    pose proof (reachable_invariant _ _ _ _ _ Hc' Hrun) as Hinv.
    split; [| split; [| repeat split]].
    + intros t Hin. destruct (task_origin _ _ _ s t Hinv Hin) as (_ & _ & Hwhole).
      unfold finished in Hfin. rewrite forallb_forall in Hfin.
      specialize (Hfin t Hin). unfold task_finished in Hfin.
      destruct (t_pending t); [| discriminate].
      by rewrite app_nil_r in Hwhole.
    + pose proof (inv_origin _ _ _ _ Hinv) as Ho.
      apply (f_equal (map (fun o => fst (fst o)))) in Ho.
      rewrite !map_map in Ho. cbn [origin fst] in Ho.
      etransitivity; [exact Ho |].
      etransitivity; [symmetry; exact (map_map (spawn envs) t_page _) |].
      apply spawned_pages.
Qed.

Lemma orchestrator_witness :
  map t_page (tasks (init 3 2 Scenario.envs)) = seq 1 3 /\
  (forall t, In t (tasks (init 3 2 Scenario.envs)) -> t_done t = []) /\
  sem (init 3 2 Scenario.envs) = 2 /\
  (forall sched s,
     run sched (init 3 2 Scenario.envs) = Some s ->
     exists rest sm s', main 3 2 Scenario.envs (sched ++ rest) = Some (sm, s')) /\
  (forall sched sm s,
     main 3 2 Scenario.envs sched = Some (sm, s) ->
     (forall t, In t (tasks s) ->
        t_pending t = [] /\ t_done t = trace_of Scenario.envs (t_page t)) /\
     map t_page (tasks s) = seq 1 3 /\
     failed_pages sm = failed_attempts s /\
     failed_count sm = Z.of_nat (length (failed_attempts s)) /\
     success_count sm = Z.of_nat 3 - failed_count sm).
Proof. apply (orchestrator 3 2 Scenario.envs). lia. Defined.

(** ** The failure ledger *)

(** C6. In every state of the run a page is in [failed_attempts] at most
    once; a page whose task ends by the success return is never in it; and
    after the run a page of the range whose task ended in a terminal
    failure is in it exactly once. No way through [fetch_page] appends
    more than once, or another page than its own. *)
Theorem ledger_written_once (n_pages : nat) (capacity : Z) (envs : environment)
    (sched : list nat) (s : state) (p : nat) :
  0 <= capacity ->
  run sched (init n_pages capacity envs) = Some s ->
  (count_occ Nat.eq_dec (failed_attempts s) p <= 1)%nat /\
  (exit_of envs p = ExSuccess -> ~ In p (failed_attempts s)) /\
  (finished s = true -> in_range n_pages p = true ->
   terminal_failure (exit_of envs p) ->
   count_occ Nat.eq_dec (failed_attempts s) p = 1%nat) /\
  (forall page env q,
     weight (appends q) (fst (fetch_page page env)) =
     if Nat.eqb q page then exit_recorded (snd (fetch_page page env)) else 0).
Proof.
  intros Hc Hrun. pose proof (reachable_invariant _ _ _ _ _ Hc Hrun) as Hinv.
  pose proof (ledger_bound _ _ _ s p Hinv) as Hb. unfold recorded in Hb.
  repeat split.
  - destruct (in_range n_pages p); [destruct (exit_of envs p); simpl in Hb |]; lia.
  - intros Hx. eapply not_recorded; try eassumption. by rewrite Hx.
  - intros Hfin Hin Hx.
    pose proof (final_ledger _ _ _ sched s p Hc Hrun Hfin) as Hl.
    rewrite Hin in Hl. unfold recorded in Hl.
    destruct Hx as [Hx|[Hx|Hx]]; rewrite Hx in Hl; simpl in Hl; lia.
  - intros page env q. apply fetch_loop_appends.
Qed.

Lemma ledger_written_once_witness :
  (count_occ Nat.eq_dec (failed_attempts Scenario.final) 3%nat <= 1)%nat /\
  (exit_of Scenario.envs 3 = ExSuccess -> ~ In 3%nat (failed_attempts Scenario.final)) /\
  (finished Scenario.final = true -> in_range 3 3 = true ->
   terminal_failure (exit_of Scenario.envs 3) ->
   count_occ Nat.eq_dec (failed_attempts Scenario.final) 3%nat = 1%nat) /\
  (forall page env q,
     weight (appends q) (fst (fetch_page page env)) =
     if Nat.eqb q page then exit_recorded (snd (fetch_page page env)) else 0).
Proof.
  apply (ledger_written_once 3 2 Scenario.envs Scenario.sched Scenario.final 3);
    [lia | reflexivity].
Defined.

(** ** Cancellation, in a run *)

(** C8. When the task of page [p] is cancelled during attempt [k], having
    retried until then, [fetch_page] ends by letting the [CancelledError]
    out: it appends nothing to the ledger on the way, and the page is not
    in [failed_attempts] in any state of the run. *)
Theorem cancellation_propagates (n_pages : nat) (capacity : Z) (envs : environment)
    (sched : list nat) (s : state) (p k : nat) :
  0 <= capacity ->
  run sched (init n_pages capacity envs) = Some s ->
  (k < max_attempts)%nat ->
  (forall j, (j < k)%nat -> snd (run_attempt p j (envs p j)) = Continue) ->
  receives_cancellation p k (envs p k) ->
  exit_of envs p = ExCancelled /\
  (forall q, weight (appends q) (trace_of envs p) = 0) /\
  ~ In p (failed_attempts s).
Proof.
  intros Hc Hrun Hk Hbefore Hcancel.
  assert (exit_of envs p = ExCancelled) as Hx.
  { unfold exit_of, fetch_page. rewrite (attempts_split k Hk), fetch_loop_continue.
    - cbn [snd fetch_loop]. apply cancellation_raises in Hcancel.
      destruct (run_attempt p k (envs p k)) as [tr sg]. simpl in Hcancel. by subst sg.
    - intros j Hj. apply Hbefore. apply in_seq in Hj. lia. }
  split; [exact Hx |]. split.
  - intros q. unfold trace_of, fetch_page. rewrite fetch_loop_appends.
    fold (fetch_page p (envs p)). fold (exit_of envs p). rewrite Hx.
    unfold own. by destruct (Nat.eqb q p).
  - eapply not_recorded; try eassumption. by rewrite Hx.
Qed.

Lemma cancellation_propagates_witness :
  exit_of Scenario.envs_cancelled 2 = ExCancelled /\
  (forall q, weight (appends q) (trace_of Scenario.envs_cancelled 2) = 0) /\
  ~ In 2%nat (failed_attempts Scenario.final_cancelled).
Proof.
  apply (cancellation_propagates 3 2 Scenario.envs_cancelled Scenario.sched_cancelled
           Scenario.final_cancelled 2 1).
  - lia.
  - reflexivity.
  - unfold max_attempts. lia.
  - intros j Hj. assert (j = 0%nat) as -> by lia. reflexivity.
  - apply rc_request; reflexivity.
Defined.

(** ** Pages, output and ledger after the run *)

Lemma handle_not_success page attempt e x :
  snd (handle page attempt e x) <> Return ExSuccess.
Proof.
  unfold handle, sleep. destruct x; repeat case_match; simpl; congruence.
Qed.

Lemma sleep_not_success e d :
  snd (sleep e d ([], Continue)) <> Return ExSuccess.
Proof. unfold sleep. destruct (slept e); simpl; congruence. Qed.

(** The success return of line 67 is reached only from a 2xx response with
    the expected keys, after a line has been written for every entry of
    the result list. *)
Lemma run_attempt_success page attempt e :
  snd (run_attempt page attempt e) = Return ExSuccess ->
  exists status data results players w,
    got e = Response status (JsonData data) /\ is_2xx status = true /\
    results_of data = Some results /\ py_iter results = Some players /\
    write_players players = (w, true) /\
    fst (run_attempt page attempt e) = EAcquire :: EGet :: w ++ [ERelease].
Proof.
  unfold run_attempt, attempt_body.
  destruct (acquired e); [| discriminate].
  destruct (got e) as [status body|x] eqn:Hg.
  2:{ pose proof (handle_not_success page attempt e x) as Hn.
      destruct (handle page attempt e x). simpl in *. congruence. }
  unfold on_response.
  destruct (status =? 429).
  { pose proof (sleep_not_success e (rate_limit_wait attempt)) as Hn.
    destruct (sleep e (rate_limit_wait attempt) ([], Continue)). simpl in *. congruence. }
  destruct (is_2xx status) eqn:H2; simpl negb; cbv iota.
  2:{ pose proof (sleep_not_success e (retry_wait attempt)) as Hn.
      destruct (sleep e (retry_wait attempt) ([], Continue)). simpl in *. congruence. }
  pose proof (handle_not_success page attempt e) as Hn.
  destruct body as [data|x].
  2:{ specialize (Hn x). destruct (handle page attempt e x). simpl in *. congruence. }
  specialize (Hn OtherException).
  destruct (expected_keys data) as [[|]|].
  - destruct (results_of data) as [results|] eqn:Hr.
    + destruct (py_iter results) as [players|] eqn:Hi.
      * destruct (write_players players) as [w ok] eqn:Hw. destruct ok.
        -- intros _. exists status, data, results, players, w. repeat split; auto.
        -- destruct (handle page attempt e OtherException). simpl in *. congruence.
      * destruct (handle page attempt e OtherException). simpl in *. congruence.
    + destruct (handle page attempt e OtherException). simpl in *. congruence.
  - simpl. discriminate.
  - destruct (handle page attempt e OtherException). simpl in *. congruence.
Qed.

Lemma fetch_loop_success page env attempts :
  snd (fetch_loop page env attempts) = ExSuccess ->
  exists attempt pre,
    In attempt attempts /\
    snd (run_attempt page attempt (env attempt)) = Return ExSuccess /\
    fst (fetch_loop page env attempts) =
      pre ++ fst (run_attempt page attempt (env attempt)).
Proof.
  induction attempts as [|a rest IH]; simpl; [discriminate |].
  destruct (run_attempt page a (env a)) as [tr sg] eqn:Hrun.
  destruct sg as [|x|]; simpl.
  - destruct (fetch_loop page env rest) as [tr' x]. simpl in *.
    intros Hx. destruct (IH Hx) as (attempt & pre & Hin & Hs & ->).
    exists attempt, (tr ++ pre). rewrite app_assoc. auto.
  - intros ->. exists a, []. rewrite Hrun. auto.
  - discriminate.
Qed.

Lemma success_exit envs p : exit_of envs p = ExSuccess -> success_path envs p.
Proof.
  intros Hx. apply fetch_loop_success in Hx as (attempt & pre & Hin & Hs & Htr).
  apply run_attempt_success in Hs
    as (status & data & results & players & w & Hg & H2 & Hr & Hi & Hw & Ha).
  exists attempt, status, data, results, players, w, pre.
  apply in_seq in Hin. unfold trace_of, fetch_page. rewrite Htr, Ha.
  repeat split; auto; lia.
Qed.

(** C1, as amended. After a completed run, for every page of the range
    whose task was not cancelled exactly one of two things holds: the task
    ended by the success return (after a 2xx response with the expected
    keys, a line written for every entry of its result list, of which
    there may be none), or the page is in the failure report; and no page
    is in the report twice. *)
Theorem page_accounted (n_pages : nat) (capacity : Z) (envs : environment)
    (sched : list nat) (sm : summary) (s : state) (p : nat) :
  0 <= capacity ->
  main n_pages capacity envs sched = Some (sm, s) ->
  in_range n_pages p = true ->
  exit_of envs p <> ExCancelled ->
  (exit_of envs p = ExSuccess <-> ~ In p (failed_pages sm)) /\
  (exit_of envs p = ExSuccess -> success_path envs p) /\
  (count_occ Nat.eq_dec (failed_pages sm) p <= 1)%nat.
Proof.
  intros Hc Hmain Hin Hx. apply main_spec in Hmain as (Hrun & Hfin & ->).
  pose proof (final_ledger _ _ _ sched s p Hc Hrun Hfin) as Hl.
  rewrite Hin in Hl. cbn [failed_pages summarise].
  rewrite (count_occ_not_In Nat.eq_dec). unfold recorded in Hl.
  split; [| split; [apply success_exit |]];
    destruct (exit_of envs p); simpl in Hl; try congruence;
    try (split; [intros; lia | intros; congruence]);
    try (split; [intros; congruence | intros; lia]); lia.
Qed.

Lemma page_accounted_witness :
  (exit_of Scenario.envs 2 = ExSuccess <->
     ~ In 2%nat (failed_pages (summarise 3 Scenario.final))) /\
  (exit_of Scenario.envs 2 = ExSuccess -> success_path Scenario.envs 2) /\
  (count_occ Nat.eq_dec (failed_pages (summarise 3 Scenario.final)) 2%nat <= 1)%nat.
Proof.
  apply (page_accounted 3 2 Scenario.envs Scenario.sched
           (summarise 3 Scenario.final) Scenario.final 2);
    [lia | reflexivity | reflexivity | discriminate].
Defined.

(** C1 as first stated fails on this run. A page whose result list is
    empty ends by the success return without writing a line: after it page 1 is neither in the output nor in
    the failure report. *)
Lemma empty_page_in_neither :
  exists sm s,
    main 1 max_concurrent_requests envs_empty_page [0; 0; 0]%nat = Some (sm, s) /\
    in_range 1 1 = true /\
    out_file s = [] /\
    ~ In 1%nat (failed_pages sm) /\
    ~ (exists t o, In t (tasks s) /\ t_page t = 1%nat /\ In (EWrite o) (t_done t)).
Proof.
  eexists _, _. split; [reflexivity |]. repeat split; simpl; try tauto.
  intros (t & o & [<- | []] & _ & Hin). simpl in Hin.
  repeat (destruct Hin as [Hin|Hin]; try discriminate). exact Hin.
Qed.

(** A page whose second entry lacks the key ['entry'] has the line of its
    first entry written at every attempt, before the [KeyError] sends it
    to the retry: after the run it is in the output and in the report. *)
Example partial_page_in_both :
  main 1 max_concurrent_requests envs_partial_page (repeat 0%nat 26) =
    Some ({| success_count := 0; failed_count := 1; failed_pages := [1%nat] |},
          final_partial) /\
  length (out_file final_partial) = 5%nat /\
  failed_attempts final_partial = [1%nat].
Proof. repeat split; vm_compute; reflexivity. Qed.

(** ** The summary *)

Lemma unrecorded_count (f : nat -> exit) (l : list nat) :
  Z.of_nat (length l) - sumZ (map (fun p => exit_recorded (f p)) l) =
  Z.of_nat (length (List.filter (fun p => unrecorded_exit (f p)) l)).
Proof.
  induction l as [|p l IH]; [reflexivity |].
  cbn [map length List.filter]. rewrite sumZ_cons.
  destruct (f p); cbn [exit_recorded unrecorded_exit length]; lia.
Qed.

Lemma ledger_length n_pages capacity envs sched s :
  0 <= capacity ->
  run sched (init n_pages capacity envs) = Some s -> finished s = true ->
  Z.of_nat (length (failed_attempts s)) =
  sumZ (map (fun p => exit_recorded (exit_of envs p)) (pages n_pages)).
Proof.
  intros Hc Hrun Hfin. pose proof (reachable_invariant _ _ _ _ _ Hc Hrun) as Hinv.
  rewrite (length_by_page n_pages).
  - f_equal. apply map_ext_in. intros p Hp.
    pose proof (final_ledger _ _ _ sched s p Hc Hrun Hfin) as Hl.
    unfold recorded in Hl. rewrite Hl.
    unfold pages in Hp. apply in_seq in Hp. unfold in_range.
    destruct (Nat.leb_spec 1 p), (Nat.leb_spec p n_pages); simpl; auto; lia.
  - intros x Hx. apply recorded_In in Hx.
    pose proof (ledger_bound _ _ _ s x Hinv) as Hb.
    destruct (in_range n_pages x); [reflexivity | lia].
Qed.

(** C9. The succeeded count of the summary is the number of pages less the
    length of [failed_attempts]; this is the number of pages whose task
    ended by the success return or by cancellation, whatever was written.
    A page answered at once with an empty result list issues its request
    and returns without writing a line, and counts as succeeded; so does a
    page whose task was cancelled. *)
Theorem succeeded_is_unrecorded (n_pages : nat) (capacity : Z) (envs : environment)
    (sched : list nat) (sm : summary) (s : state) :
  0 <= capacity ->
  main n_pages capacity envs sched = Some (sm, s) ->
  success_count sm = Z.of_nat n_pages - Z.of_nat (length (failed_attempts s)) /\
  success_count sm =
    Z.of_nat (length (List.filter (fun p => unrecorded_exit (exit_of envs p))
                        (pages n_pages))) /\
  (forall p status data,
     acquired (envs p 0%nat) = true ->
     got (envs p 0%nat) = Response status (JsonData data) ->
     is_2xx status = true ->
     expected_keys data = Some true ->
     results_of data = Some (JArr []) ->
     trace_of envs p = [EAcquire; EGet; ERelease] /\
     unrecorded_exit (exit_of envs p) = true /\
     ~ In p (failed_attempts s)) /\
  (forall p,
     exit_of envs p = ExCancelled ->
     unrecorded_exit (exit_of envs p) = true /\ ~ In p (failed_attempts s)).
Proof.
  intros Hc Hmain. apply main_spec in Hmain as (Hrun & Hfin & ->).
  split; [reflexivity |]. split; [| split].
  - cbn [success_count summarise].
    rewrite (ledger_length _ _ _ _ _ Hc Hrun Hfin), <- unrecorded_count.
    unfold pages. by rewrite length_seq.
  - intros p status data Ha Hg H2 Hk Hr.
    assert (fetch_page p (envs p) = ([EAcquire; EGet; ERelease], ExSuccess)) as Hf.
    { unfold fetch_page. cbn [seq max_attempts fetch_loop].
      unfold run_attempt, attempt_body, on_response. rewrite Ha, Hg, H2, Hk, Hr.
      unfold is_2xx in H2. apply andb_prop in H2 as [Hlo Hhi].
      destruct (Z.eqb_spec status 429) as [->|_]; [discriminate | reflexivity]. }
    unfold trace_of, exit_of. rewrite Hf. repeat split.
    eapply not_recorded; try eassumption. unfold exit_of. by rewrite Hf.
  - intros p Hx. rewrite Hx. split; [reflexivity |].
    eapply not_recorded; try eassumption. by rewrite Hx.
Qed.

Lemma succeeded_is_unrecorded_witness :
  success_count (summarise 3 Scenario.final_cancelled) =
    Z.of_nat 3 - Z.of_nat (length (failed_attempts Scenario.final_cancelled)) /\
  success_count (summarise 3 Scenario.final_cancelled) =
    Z.of_nat (length (List.filter
                        (fun p => unrecorded_exit (exit_of Scenario.envs_cancelled p))
                        (pages 3))) /\
  (forall p status data,
     acquired (Scenario.envs_cancelled p 0%nat) = true ->
     got (Scenario.envs_cancelled p 0%nat) = Response status (JsonData data) ->
     is_2xx status = true ->
     expected_keys data = Some true ->
     results_of data = Some (JArr []) ->
     trace_of Scenario.envs_cancelled p = [EAcquire; EGet; ERelease] /\
     unrecorded_exit (exit_of Scenario.envs_cancelled p) = true /\
     ~ In p (failed_attempts Scenario.final_cancelled)) /\
  (forall p,
     exit_of Scenario.envs_cancelled p = ExCancelled ->
     unrecorded_exit (exit_of Scenario.envs_cancelled p) = true /\
     ~ In p (failed_attempts Scenario.final_cancelled)).
Proof.
  apply (succeeded_is_unrecorded 3 2 Scenario.envs_cancelled Scenario.sched_cancelled
           (summarise 3 Scenario.final_cancelled) Scenario.final_cancelled);
    [lia | reflexivity].
Defined.

(** In the run torn down while page 2 waits, page 2 wrote nothing and is
    counted among the two succeeded pages. *)
Example cancelled_page_counted :
  main 3 2 Scenario.envs_cancelled Scenario.sched_cancelled =
    Some ({| success_count := 2; failed_count := 1; failed_pages := [3%nat] |},
          Scenario.final_cancelled) /\
  exit_of Scenario.envs_cancelled 2 = ExCancelled /\
  weight is_write (trace_of Scenario.envs_cancelled 2) = 0 /\
  length (out_file Scenario.final_cancelled) = 2%nat.
Proof. repeat split. Qed.


(** * Further properties of [Scraper.py] *)

(** ** The success path and entries without a key *)











(** ** Client errors outside the 5xx class *)

Lemma run_attempt_refused page attempt e :
  refused e ->
  run_attempt page attempt e =
    if Nat.eqb attempt (max_attempts - 1)
    then ([EAcquire; EGet; ESleep 2; EAppend page; ERelease], Return ExGaveUp)
    else (refused_events, Continue).
Proof.
  intros (Ha & Hs & status & Hg & H5).
  unfold run_attempt, attempt_body, handle, sleep. rewrite Ha, Hg, H5, Hs.
  by destruct (Nat.eqb attempt (max_attempts - 1)).
Qed.

(** X3. A page whose every attempt ends in a [ClientResponseError] with a
    status outside the 5xx class waits two seconds after each of its five
    requests, whatever the attempt index, ten seconds in all; after the
    last wait it is appended to the ledger from inside the loop, still
    holding the permit, and returns, so that the append after the loop is
    not reached and the page is recorded once. *)
Theorem refused_page_gives_up (page : nat) (env : nat -> attempt_env) :
  (forall a, (a < max_attempts)%nat -> refused (env a)) ->
  fetch_page page env =
    (refused_events ++ refused_events ++ refused_events ++ refused_events ++
     [EAcquire; EGet; ESleep 2; EAppend page; ERelease], ExGaveUp) /\
  weight is_get (fst (fetch_page page env)) = Z.of_nat max_attempts /\
  weight slept_for (fst (fetch_page page env)) = 10 /\
  weight (appends page) (fst (fetch_page page env)) = 1.
Proof.
  intros H.
  assert (fetch_page page env =
    (refused_events ++ refused_events ++ refused_events ++ refused_events ++
     [EAcquire; EGet; ESleep 2; EAppend page; ERelease], ExGaveUp)) as ->.
  { unfold fetch_page. cbn [seq max_attempts fetch_loop].
    rewrite !run_attempt_refused by (apply H; unfold max_attempts; lia).
    reflexivity. }
  split; [reflexivity |]. cbn [fst]. repeat split.
  simpl. by rewrite Nat.eqb_refl.
Qed.

Lemma refused_page_gives_up_witness :
  fetch_page 4 (fun _ => answered (GetRaised (ClientResponseError 404))) =
    (refused_events ++ refused_events ++ refused_events ++ refused_events ++
     [EAcquire; EGet; ESleep 2; EAppend 4%nat; ERelease], ExGaveUp) /\
  weight is_get (fst (fetch_page 4 (fun _ => answered (GetRaised (ClientResponseError 404))))) =
    Z.of_nat max_attempts /\
  weight slept_for
    (fst (fetch_page 4 (fun _ => answered (GetRaised (ClientResponseError 404))))) = 10 /\
  weight (appends 4)
    (fst (fetch_page 4 (fun _ => answered (GetRaised (ClientResponseError 404))))) = 1.
Proof.
  apply (refused_page_gives_up 4 (fun _ => answered (GetRaised (ClientResponseError 404)))).
  intros a _. repeat split. exists 404. split; reflexivity.
Defined.

(** ** Budgets: requests and waits *)

Lemma retry_wait_pos attempt : 1 <= retry_wait attempt.
Proof.
  unfold retry_wait. pose proof (Z.pow_pos_nonneg 2 (Z.of_nat attempt)). lia.
Qed.

(** The waits an attempt can make. *)
Lemma handle_waits page attempt e x d :
  In (ESleep d) (fst (handle page attempt e x)) ->
  d = 2 \/ d = retry_wait attempt \/ d = rate_limit_wait attempt.
Proof.
  unfold handle, sleep.
  destruct x; repeat case_match; simpl; intros Hin;
    repeat match goal with
           | H : _ \/ _ |- _ => destruct H
           | H : False |- _ => destruct H
           | H : ESleep _ = ESleep _ |- _ => injection H as H; subst
           | H : _ = ESleep _ |- _ => discriminate H
           end; auto.
Qed.

Lemma run_attempt_waits page attempt e d :
  In (ESleep d) (fst (run_attempt page attempt e)) ->
  d = 2 \/ d = retry_wait attempt \/ d = rate_limit_wait attempt.
Proof.
  pose proof (handle_waits page attempt e) as Hh.
  assert (Hsleep : forall d0, In (ESleep d) (fst (sleep e d0 ([], Continue))) -> d = d0).
  { intros d0. unfold sleep. destruct (slept e); simpl;
      intros [H|[]]; by injection H. }
  unfold run_attempt. destruct (acquired e); [| intros []].
  unfold attempt_body.
  assert (In (ESleep d)
            (fst match got e with
                 | Response status body => on_response page attempt e status body
                 | GetRaised x => handle page attempt e x
                 end) ->
          d = 2 \/ d = retry_wait attempt \/ d = rate_limit_wait attempt) as Hbody.
  { destruct (got e) as [status body|x]; [| apply Hh].
    unfold on_response.
    destruct (status =? 429); [intros H; apply Hsleep in H; auto |].
    destruct (negb (is_2xx status)); [intros H; apply Hsleep in H; auto |].
    destruct body as [data|x]; [| apply Hh].
    destruct (expected_keys data) as [[|]|]; [| simpl; intros [H|[]]; discriminate | apply Hh].
    destruct (results_of data) as [results|]; [| apply Hh].
    destruct (py_iter results) as [players|]; [| apply Hh].
    pose proof (write_players_writes players) as Hw.
    destruct (write_players players) as [w ok]. simpl in Hw. destruct ok.
    - simpl. intros H. by apply In_writes_sleep in H.
    - specialize (Hh OtherException d).
      destruct (handle page attempt e OtherException) as [h sg]. simpl in *.
      intros H. apply in_app_or in H as [H|H]; [by apply In_writes_sleep in H | auto]. }
  destruct (match got e with
            | Response status body => on_response page attempt e status body
            | GetRaised x => handle page attempt e x
            end) as [tr sg]. simpl in *.
  intros [H|[H|H]]; try discriminate.
  apply in_app_or in H as [H|[H|[]]]; [auto | discriminate].
Qed.

Lemma run_attempt_budget page attempt e :
  0 <= weight is_get (fst (run_attempt page attempt e)) <= 1 /\
  0 <= weight slept_for (fst (run_attempt page attempt e)) <= rate_limit_wait attempt.
Proof.
  pose proof (run_attempt_waits page attempt e) as Hd.
  pose proof (retry_wait_pos attempt) as Hpos.
  assert (forall d, d = 2 \/ d = retry_wait attempt \/ d = rate_limit_wait attempt ->
                    0 <= d <= rate_limit_wait attempt) as Hb.
  { unfold rate_limit_wait, retry_wait in *. intros d [->|[->| ->]]; lia. }
  destruct (run_attempt_shape page attempt e)
    as [[_ Hrun] | [_ (w & tl & sg & Hrun & Hw & Ht)]]; rewrite Hrun in *.
  { simpl. unfold rate_limit_wait, retry_wait in *. lia. }
  cbn [fst] in *.
  cbn [weight fold_right is_get slept_for].
  fold (weight is_get (w ++ tl ++ [ERelease])).
  fold (weight slept_for (w ++ tl ++ [ERelease])).
  rewrite !weight_app, !(writes_weight _ w) by (auto; reflexivity).
  assert (forall d, In (ESleep d) tl -> 0 <= d <= rate_limit_wait attempt) as Htl.
  { intros d Hin. apply Hb, Hd. right. right. apply in_or_app. right.
    apply in_or_app. by left. }
  destruct Ht; simpl;
    try (specialize (Htl _ (or_introl eq_refl))); unfold rate_limit_wait in *; lia.
Qed.

Lemma fetch_loop_budget page env attempts :
  0 <= weight is_get (fst (fetch_loop page env attempts)) <= Z.of_nat (length attempts) /\
  0 <= weight slept_for (fst (fetch_loop page env attempts)) <= longest_wait attempts.
Proof.
  unfold longest_wait.
  induction attempts as [|a rest IH]; [simpl; lia |].
  pose proof (run_attempt_budget page a (env a)) as Ha.
  assert (0 <= sumZ (map rate_limit_wait rest)) as Hrest by lia.
  cbn [fetch_loop map length]. rewrite sumZ_cons, Nat2Z.inj_succ.
  destruct (run_attempt page a (env a)) as [tr sg]. cbn [fst] in Ha.
  destruct sg as [|x|].
  - destruct (fetch_loop page env rest) as [tr' x]. cbn [fst] in *.
    rewrite !weight_app. lia.
  - cbn [fst]. lia.
  - cbn [fst]. lia.
Qed.

Lemma sumZ_bounded {A} (f : A -> Z) (b : Z) (l : list A) :
  (forall x, f x <= b) -> sumZ (map f l) <= b * Z.of_nat (length l).
Proof.
  intros H. induction l as [|x l IH]; [simpl; lia |].
  cbn [map length]. rewrite sumZ_cons, Nat2Z.inj_succ. specialize (H x). lia.
Qed.

(** X4. Whatever a page is answered, its task makes at most
    [max_attempts] = 5 requests and spends at most 5 + 10 + 20 + 40 + 80 =
    155 seconds in backoff sleeps; in every state of a run the tasks
    together have made at most five requests per page. *)
Theorem request_budget (n_pages : nat) (capacity : Z) (envs : environment)
    (sched : list nat) (s : state) :
  0 <= capacity ->
  run sched (init n_pages capacity envs) = Some s ->
  total is_get (tasks s) <= Z.of_nat max_attempts * Z.of_nat n_pages /\
  (forall page env,
     0 <= weight is_get (fst (fetch_page page env)) <= Z.of_nat max_attempts /\
     0 <= weight slept_for (fst (fetch_page page env)) <= 155).
Proof.
  intros Hc Hrun. pose proof (reachable_invariant _ _ _ _ _ Hc Hrun) as Hinv.
  assert (forall page env,
     0 <= weight is_get (fst (fetch_page page env)) <= Z.of_nat max_attempts /\
     0 <= weight slept_for (fst (fetch_page page env)) <= 155) as Hpage.
  { intros page env. apply (fetch_loop_budget page env (seq 0 max_attempts)). }
  split; [| exact Hpage].
  etransitivity.
  { apply total_le_whole. intros e. destruct e; simpl; lia. }
  rewrite (inv_origin _ _ _ _ Hinv), !map_map.
  etransitivity; [apply (sumZ_bounded _ (Z.of_nat max_attempts)) |].
  - intros p. unfold origin, spawn.
    pose proof (Hpage p (envs p)) as [Hg _].
    destruct (fetch_page p (envs p)). simpl in *. lia.
  - unfold pages. rewrite length_seq. lia.
Qed.

Lemma request_budget_witness :
  total is_get (tasks Scenario.final) <= Z.of_nat max_attempts * Z.of_nat 3 /\
  (forall page env,
     0 <= weight is_get (fst (fetch_page page env)) <= Z.of_nat max_attempts /\
     0 <= weight slept_for (fst (fetch_page page env)) <= 155).
Proof.
  apply (request_budget 3 2 Scenario.envs Scenario.sched Scenario.final);
    [lia | reflexivity].
Defined.

(** ** The output file *)

Lemma lines_app (a b : list event) : lines (a ++ b) = lines a ++ lines b.
Proof. unfold lines. apply flat_map_app. Qed.

Lemma lines_advance (t : task) e rest :
  lines (t_done (advance t e rest)) = lines (t_done t) ++ written e.
Proof. simpl. rewrite lines_app. simpl. by rewrite app_nil_r. Qed.

Lemma all_lines_advance (ts : list task) i t e rest :
  ts !! i = Some t ->
  Permutation (all_lines (<[i := advance t e rest]> ts)) (all_lines ts ++ written e).
Proof.
  unfold all_lines. revert i. induction ts as [|t0 ts IH]; intros [|i] H; simpl in H;
    try discriminate.
  - injection H as ->. cbn [list_insert insert flat_map]. rewrite lines_advance.
    rewrite <- !app_assoc. apply Permutation_app_head, Permutation_app_comm.
  - change (<[S i := advance t e rest]> (t0 :: ts)) with (t0 :: <[i := advance t e rest]> ts).
    cbn [flat_map]. rewrite <- app_assoc. apply Permutation_app_head. by apply IH.
Qed.

Lemma all_lines_spawned envs (ps : list nat) : all_lines (map (spawn envs) ps) = [].
Proof.
  unfold all_lines. induction ps as [|p ps IH]; simpl; [reflexivity |].
  rewrite IH. unfold spawn. by destruct (fetch_page p (envs p)).
Qed.

Lemma step_output i s s' : output_invariant s -> step i s = Some s' -> output_invariant s'.
Proof.
  intros [Hperm Hsub] Hstep.
  apply step_spec in Hstep as (t & e & rest & Ht & Hp & _ & _ & Ho & _ & Hts).
  split.
  - rewrite Ho, Hts. rewrite (all_lines_advance _ _ _ _ _ Ht).
    by apply Permutation_app_tail.
  - intros t' Hin. rewrite Hts in Hin. rewrite Ho.
    apply list_elem_of_In, list_elem_of_lookup in Hin as [j Hj].
    destruct (decide (i = j)) as [<-|Hne].
    + rewrite list_lookup_insert_eq in Hj by (eapply lookup_lt_Some, Ht).
      injection Hj as <-. rewrite lines_advance.
      apply sublist_app; [| reflexivity].
      apply Hsub. eapply list_elem_of_In, list_elem_of_lookup_2, Ht.
    + rewrite list_lookup_insert_ne in Hj by exact Hne.
      apply sublist_inserts_r, Hsub.
      eapply list_elem_of_In, list_elem_of_lookup_2, Hj.
Qed.

Lemma run_output sched s s' : output_invariant s -> run sched s = Some s' -> output_invariant s'.
Proof.
  revert s. induction sched as [|i sched IH]; intros s Hinv Hrun; simpl in Hrun.
  - by injection Hrun as <-.
  - destruct (step i s) as [s1|] eqn:Hstep; [| discriminate].
    eapply IH; [eapply step_output |]; eassumption.
Qed.

Lemma finished_lines n_pages capacity envs s :
  invariant n_pages capacity envs s -> finished s = true ->
  all_lines (tasks s) = flat_map (fun p => lines (trace_of envs p)) (pages n_pages).
Proof.
  intros Hinv Hfin.
  assert (all_lines (tasks s) =
          flat_map (fun o => lines (snd o)) (map origin (tasks s))) as ->.
  { unfold finished in Hfin. unfold all_lines.
    induction (tasks s) as [|t ts IH]; [reflexivity |].
    simpl in Hfin. apply andb_prop in Hfin as [Ht Hts].
    cbn [map flat_map]. rewrite (IH Hts). unfold task_finished in Ht.
    destruct (t_pending t) eqn:Hp; [| discriminate].
    change (snd (origin t)) with (t_done t ++ t_pending t).
    by rewrite Hp, app_nil_r. }
  rewrite (inv_origin _ _ _ _ Hinv), map_map.
  induction (pages n_pages) as [|p ps IH]; [reflexivity |].
  cbn [map flat_map]. rewrite IH. f_equal.
  unfold origin, spawn, trace_of. by destruct (fetch_page p (envs p)).
Qed.

(** X5. In every state of a run the output file holds exactly the lines
    the tasks have written so far, none lost and none doubled or added,
    and the lines of each task stand in it in the order the task wrote
    them; after the run the file is a rearrangement of the lines of the
    pages' event sequences. *)
Theorem output_is_what_tasks_wrote (n_pages : nat) (capacity : Z) (envs : environment)
    (sched : list nat) (s : state) :
  0 <= capacity ->
  run sched (init n_pages capacity envs) = Some s ->
  Permutation (out_file s) (all_lines (tasks s)) /\
  (forall t, In t (tasks s) -> sublist (lines (t_done t)) (out_file s)) /\
  (finished s = true ->
   Permutation (out_file s)
     (flat_map (fun p => lines (trace_of envs p)) (pages n_pages))).
Proof.
  intros Hc Hrun.
  assert (output_invariant s) as [Hperm Hsub].
  { eapply run_output; [| exact Hrun]. split.
    - simpl. by rewrite all_lines_spawned.
    - intros t Hin. simpl. apply sublist_nil_r.
      apply spawned_idle in Hin. by rewrite Hin. }
  split; [exact Hperm |]. split; [exact Hsub |].
  intros Hfin.
  rewrite <- (finished_lines _ _ _ s (reachable_invariant _ _ _ _ _ Hc Hrun) Hfin).
  exact Hperm.
Qed.

Lemma output_is_what_tasks_wrote_witness :
  Permutation (out_file Scenario.final) (all_lines (tasks Scenario.final)) /\
  (forall t, In t (tasks Scenario.final) ->
     sublist (lines (t_done t)) (out_file Scenario.final)) /\
  (finished Scenario.final = true ->
   Permutation (out_file Scenario.final)
     (flat_map (fun p => lines (trace_of Scenario.envs p)) (pages 3))).
Proof.
  apply (output_is_what_tasks_wrote 3 2 Scenario.envs Scenario.sched Scenario.final);
    [lia | reflexivity].
Defined.

(** ** The failure report *)

Lemma unrecorded_exit_recorded x :
  negb (unrecorded_exit x) = true <-> exit_recorded x = 1.
Proof. destruct x; simpl; split; intros H; try reflexivity; try discriminate. Qed.

(** X6. After a completed run the failure report lists the pages of the
    range whose task ended in a terminal failure, each once and in some
    order, and nothing else; the failed count is their number and the
    succeeded count lies between zero and the number of pages. *)
Theorem report_lists_failing_pages (n_pages : nat) (capacity : Z) (envs : environment)
    (sched : list nat) (sm : summary) (s : state) :
  0 <= capacity ->
  main n_pages capacity envs sched = Some (sm, s) ->
  Permutation (failed_pages sm) (failing_pages envs n_pages) /\
  List.NoDup (failed_pages sm) /\
  failed_count sm = Z.of_nat (length (failing_pages envs n_pages)) /\
  0 <= success_count sm <= Z.of_nat n_pages.
Proof.
  intros Hc Hmain. apply main_spec in Hmain as (Hrun & Hfin & ->).
  cbn [failed_pages failed_count success_count summarise].
  pose proof (reachable_invariant _ _ _ _ _ Hc Hrun) as Hinv.
  assert (List.NoDup (failed_attempts s)) as Hnd.
  { apply (NoDup_count_occ Nat.eq_dec). intros p.
    pose proof (ledger_bound _ _ _ s p Hinv) as Hb. unfold recorded in Hb.
    destruct (in_range n_pages p); [destruct (exit_of envs p); simpl in Hb |]; lia. }
  assert (Permutation (failed_attempts s) (failing_pages envs n_pages)) as Hperm.
  { apply Permutation.NoDup_Permutation;
      [exact Hnd | apply List.NoDup_filter, List.seq_NoDup |].
    intros p. unfold failing_pages. rewrite filter_In, unrecorded_exit_recorded.
    rewrite recorded_In, (final_ledger _ _ _ sched s p Hc Hrun Hfin).
    unfold pages, in_range. rewrite in_seq.
    destruct (Nat.leb_spec 1 p), (Nat.leb_spec p n_pages); simpl;
      try (split; [lia | intros [? _]; lia]).
    destruct (exit_of envs p); simpl; split; intros; try lia; split; lia. }
  split; [exact Hperm |]. split; [exact Hnd |].
  pose proof (Permutation_length Hperm) as Hlen.
  assert (length (failing_pages envs n_pages) <= n_pages)%nat as Hle.
  { unfold failing_pages, pages.
    etransitivity; [apply List.filter_length_le | by rewrite length_seq]. }
  split; lia.
Qed.

Lemma report_lists_failing_pages_witness :
  Permutation (failed_pages (summarise 3 Scenario.final))
    (failing_pages Scenario.envs 3) /\
  List.NoDup (failed_pages (summarise 3 Scenario.final)) /\
  failed_count (summarise 3 Scenario.final) =
    Z.of_nat (length (failing_pages Scenario.envs 3)) /\
  0 <= success_count (summarise 3 Scenario.final) <= Z.of_nat 3.
Proof.
  apply (report_lists_failing_pages 3 2 Scenario.envs Scenario.sched
           (summarise 3 Scenario.final) Scenario.final);
    [lia | reflexivity].
Defined.

(** ** The event loop never gets stuck *)

Lemma run_remaining sched s s' :
  run sched s = Some s' -> (length sched + remaining s' = remaining s)%nat.
Proof.
  revert s. induction sched as [|i sched IH]; intros s Hrun; simpl in Hrun.
  - injection Hrun as <-. reflexivity.
  - destruct (step i s) as [s1|] eqn:Hstep; [| discriminate].
    apply step_remaining in Hstep. apply IH in Hrun. simpl. lia.
Qed.

(** X7. With at least one permit, a run cannot get stuck and cannot go
    on for ever: in a state where no task can be resumed every task has
    ended, and the steps taken plus the events still to perform always
    add up to the events of the pages' tasks, so that a run ends after
    exactly that many steps. *)
Theorem event_loop_never_stuck (n_pages : nat) (capacity : Z) (envs : environment)
    (sched : list nat) (s : state) :
  0 < capacity ->
  run sched (init n_pages capacity envs) = Some s ->
  ((forall i, step i s = None) -> finished s = true) /\
  (length sched + remaining s = remaining (init n_pages capacity envs))%nat /\
  (finished s = true -> length sched = remaining (init n_pages capacity envs)).
Proof.
  intros Hc Hrun.
  assert (0 <= capacity) as Hc' by lia.
  pose proof (reachable_invariant _ _ _ _ _ Hc' Hrun) as Hinv.
  pose proof (run_remaining _ _ _ Hrun) as Hlen.
  split; [| split; [exact Hlen |]].
  - intros Hstuck. destruct (finished s) eqn:Hfin; [reflexivity |].
    destruct (progress _ _ _ s Hc Hinv Hfin) as (i & s' & Hstep).
    rewrite Hstuck in Hstep. discriminate.
  - intros Hfin. rewrite <- Hlen.
    assert (remaining s = 0%nat) as ->; [| lia].
    unfold finished in Hfin. unfold remaining.
    induction (tasks s) as [|t ts IH]; [reflexivity |].
    simpl in Hfin. apply andb_prop in Hfin as [Ht Hts]. simpl. rewrite (IH Hts).
    unfold task_finished in Ht. by destruct (t_pending t).
Qed.

Lemma event_loop_never_stuck_witness :
  ((forall i, step i Scenario.midway = None) -> finished Scenario.midway = true) /\
  (length Scenario.opening + remaining Scenario.midway =
     remaining (init 3 2 Scenario.envs))%nat /\
  (finished Scenario.midway = true ->
   length Scenario.opening = remaining (init 3 2 Scenario.envs)).
Proof.
  apply (event_loop_never_stuck 3 2 Scenario.envs Scenario.opening Scenario.midway);
    [lia | reflexivity].
Defined.

(** ** Retries followed by success *)








(** * Properties of [normalise.py] *)

Module NormaliseFacts.
Import Normalise.

(** ** Characters and strings *)

Lemma lower_char_space c : is_space (lower_char c) = is_space c.
Proof. destruct c as [[] [] [] [] [] [] [] []]; reflexivity. Qed.

Lemma lower_char_idem c : lower_char (lower_char c) = lower_char c.
Proof. destruct c as [[] [] [] [] [] [] [] []]; reflexivity. Qed.

Lemma lower_char_not_upper c : is_upper (lower_char c) = false.
Proof. destruct c as [[] [] [] [] [] [] [] []]; reflexivity. Qed.

Lemma py_lower_idem s : py_lower (py_lower s) = py_lower s.
Proof. induction s as [|c s IH]; simpl; [reflexivity | by rewrite lower_char_idem, IH]. Qed.

Lemma py_lower_length s : String.length (py_lower s) = String.length s.
Proof. induction s as [|c s IH]; simpl; [reflexivity | by rewrite IH]. Qed.

Lemma py_lower_app (a b : string) :
  py_lower (a ++ b)%string = (py_lower a ++ py_lower b)%string.
Proof. induction a as [|c a IH]; simpl; [reflexivity | by rewrite IH]. Qed.

Lemma lstrip_lower s : lstrip (py_lower s) = py_lower (lstrip s).
Proof.
  induction s as [|c s IH]; simpl; [reflexivity |].
  rewrite lower_char_space. by destruct (is_space c).
Qed.

Lemma rstrip_lower s : rstrip (py_lower s) = py_lower (rstrip s).
Proof.
  induction s as [|c s IH]; simpl; [reflexivity |].
  rewrite IH, lower_char_space.
  destruct (rstrip s); simpl; [by destruct (is_space c) | reflexivity].
Qed.

Lemma strip_lower s : py_strip (py_lower s) = py_lower (py_strip s).
Proof. unfold py_strip. by rewrite lstrip_lower, rstrip_lower. Qed.

Lemma rstrip_head c s : is_space c = false -> rstrip (String c s) = String c (rstrip s).
Proof. intros H. simpl. rewrite H. by destruct (rstrip s). Qed.

Lemma lstrip_head s :
  lstrip s = EmptyString \/ exists c rest, lstrip s = String c rest /\ is_space c = false.
Proof.
  induction s as [|c s IH]; simpl; [by left |].
  destruct (is_space c) eqn:Hc; [exact IH | right; by exists c, s].
Qed.

Lemma rstrip_idem s : rstrip (rstrip s) = rstrip s.
Proof.
  induction s as [|c s IH]; simpl; [reflexivity |].
  destruct (rstrip s) as [|c' kept] eqn:Hr.
  - destruct (is_space c) eqn:Hc; simpl; [reflexivity | by rewrite Hc].
  - change (rstrip (String c (String c' kept)) = String c (String c' kept)).
    cbn [rstrip] in *. by rewrite IH.
Qed.

Lemma py_strip_head s :
  py_strip s = EmptyString \/
  exists c rest, py_strip s = String c rest /\ is_space c = false.
Proof.
  unfold py_strip. destruct (lstrip_head s) as [-> | (c & rest & -> & Hc)]; [by left |].
  right. exists c, (rstrip rest). by rewrite rstrip_head.
Qed.

Lemma py_strip_idem s : py_strip (py_strip s) = py_strip s.
Proof.
  destruct (py_strip_head s) as [-> | (c & rest & Hs & Hc)]; [reflexivity |].
  unfold py_strip at 1. rewrite Hs. simpl lstrip. rewrite Hc.
  rewrite <- Hs. unfold py_strip. apply rstrip_idem.
Qed.

Lemma normalise_key_idem k : normalise_key (normalise_key k) = normalise_key k.
Proof.
  unfold normalise_key. by rewrite strip_lower, py_strip_idem, py_lower_idem.
Qed.

Lemma all_space_cons c s :
  all_space (String c s) -> is_space c = true /\ all_space s.
Proof. unfold all_space. simpl. intros H. by inversion H. Qed.

Lemma lstrip_padding (a s : string) :
  all_space a -> lstrip (a ++ s)%string = lstrip s.
Proof.
  induction a as [|c a IH]; simpl; [reflexivity |].
  intros H. apply all_space_cons in H as [-> H]. by apply IH.
Qed.

Lemma rstrip_all_space b : all_space b -> rstrip b = EmptyString.
Proof.
  induction b as [|c b IH]; simpl; [reflexivity |].
  intros H. apply all_space_cons in H as [-> H]. by rewrite IH.
Qed.

Lemma rstrip_padding (s b : string) :
  all_space b -> rstrip (s ++ b)%string = rstrip s.
Proof.
  intros Hb. induction s as [|c s IH]; simpl; [by apply rstrip_all_space |].
  by rewrite IH.
Qed.

Lemma lstrip_all_space b : all_space b -> lstrip b = EmptyString.
Proof.
  induction b as [|c b IH]; simpl; [reflexivity |].
  intros H. apply all_space_cons in H as [-> H]. by apply IH.
Qed.

Lemma strip_padding_r (s b : string) :
  all_space b -> rstrip (lstrip (s ++ b)%string) = rstrip (lstrip s).
Proof.
  intros Hb. induction s as [|c s IH].
  - simpl. by rewrite (lstrip_all_space _ Hb).
  - cbn [String.append lstrip]. destruct (is_space c); [exact IH |].
    change (String c (s ++ b)%string) with (String c s ++ b)%string.
    by apply rstrip_padding.
Qed.

Lemma rstrip_last s pre c :
  rstrip s = (pre ++ String c EmptyString)%string -> is_space c = false.
Proof.
  revert pre. induction s as [|c0 s IH]; intros pre; simpl.
  - destruct pre; discriminate.
  - destruct (rstrip s) as [|c' kept] eqn:Hr.
    + destruct (is_space c0) eqn:Hc0; [destruct pre; discriminate |].
      destruct pre as [|p pre]; simpl; intros H.
      * by injection H as <-.
      * injection H as _ H. destruct pre; discriminate.
    + destruct pre as [|p pre]; simpl; intros H; [discriminate |].
      injection H as _ H. by apply (IH pre).
Qed.

Lemma lstrip_length s : (String.length (lstrip s) <= String.length s)%nat.
Proof. induction s as [|c s IH]; simpl; [lia | destruct (is_space c); simpl; lia]. Qed.

Lemma rstrip_length s : (String.length (rstrip s) <= String.length s)%nat.
Proof.
  induction s as [|c s IH]; simpl; [lia |].
  destruct (rstrip s); [destruct (is_space c) |]; simpl in *; lia.
Qed.

Lemma py_lower_not_upper s :
  Forall (fun c => is_upper c = false) (list_ascii_of_string (py_lower s)).
Proof.
  induction s as [|c s IH]; simpl; constructor; [apply lower_char_not_upper | exact IH].
Qed.

(** ** Dicts *)

Lemma dict_get_set_eq k v fields : dict_get k (dict_set k v fields) = Some v.
Proof.
  induction fields as [|[k' v'] fields IH]; simpl.
  - by rewrite String.eqb_refl.
  - destruct (String.eqb k k') eqn:Hk; simpl; rewrite Hk; [reflexivity | exact IH].
Qed.

Lemma dict_get_set_ne k k' v fields :
  k' <> k -> dict_get k' (dict_set k v fields) = dict_get k' fields.
Proof.
  intros Hne. induction fields as [|[k0 v0] fields IH]; simpl.
  - by apply String.eqb_neq in Hne as ->.
  - destruct (String.eqb k k0) eqn:Hk; simpl.
    + apply String.eqb_eq in Hk as <-. by apply String.eqb_neq in Hne as ->.
    + by rewrite IH.
Qed.

Lemma dict_set_idem k v fields :
  dict_set k v (dict_set k v fields) = dict_set k v fields.
Proof.
  induction fields as [|[k' v'] fields IH]; simpl.
  - by rewrite String.eqb_refl.
  - destruct (String.eqb k k') eqn:Hk; simpl; rewrite Hk; [reflexivity | by rewrite IH].
Qed.

Lemma dict_set_keys k v fields :
  map fst (dict_set k v fields) =
  if has_key k fields then map fst fields else map fst fields ++ [k].
Proof.
  unfold has_key. induction fields as [|[k' v'] fields IH]; simpl; [reflexivity |].
  destruct (String.eqb k k') eqn:Hk; simpl; [reflexivity |].
  rewrite IH. by destruct (existsb _ fields).
Qed.

(** ** The loop *)


Lemma normalise_items_spec items items' :
  normalise_items items = Some items' <->
  Forall2 (fun a b => normalise_item a = Some b) items items'.
Proof.
  revert items'. induction items as [|a items IH]; intros items'; simpl.
  - split; [intros [= <-]; constructor | intros H; by inversion H].
  - split.
    + destruct (normalise_item a) as [b|] eqn:Ha; [| discriminate].
      destruct (normalise_items items) as [rest|]; [| discriminate].
      intros [= <-]. constructor; [exact Ha | by apply IH].
    + intros H. inversion H as [|a' b l l' Hab Hl]; subst.
      rewrite Hab. apply IH in Hl. by rewrite Hl.
Qed.

Lemma normalise_item_fixed a b :
  normalise_item a = Some b -> normalise_item b = Some b.
Proof.
  unfold normalise_item, dict_get_default.
  destruct a as [| | | | |fields]; try discriminate.
  destruct (dict_get "Key" fields) as [[| | |k| |]|]; try discriminate;
    intros [= <-]; rewrite dict_get_set_eq, normalise_key_idem, dict_set_idem;
    reflexivity.
Qed.

End NormaliseFacts.

(** ** What [main] accepts and what it writes *)


(** X9. When [main] gets through a list, the document it writes is a list
    of as many dicts, item by item: the ["Key"] of each is the original
    one (the empty str when there was none) stripped and lowered, every
    other key keeps its value, and the keys keep their order, a new
    ["Key"] coming last. *)
Theorem normalise_result (items : list json) (out : json) :
  Normalise.main (JArr items) = Some out ->
  exists items',
    out = JArr items' /\
    length items' = length items /\
    forall i fields,
      items !! i = Some (JObj fields) ->
      exists fields' k,
        items' !! i = Some (JObj fields') /\
        Normalise.original_key fields = JStr k /\
        dict_get "Key" fields' = Some (JStr (Normalise.normalise_key k)) /\
        (forall k', k' <> "Key" -> dict_get k' fields' = dict_get k' fields) /\
        map fst fields' =
          if has_key "Key" fields then map fst fields else map fst fields ++ ["Key"].
Proof.
  unfold Normalise.main. cbn [py_iter].
  destruct (Normalise.normalise_items items) as [items'|] eqn:Hn; [| discriminate].
  intros [= <-]. exists items'.
  apply NormaliseFacts.normalise_items_spec in Hn.
  split; [reflexivity |]. split; [symmetry; eapply Forall2_length, Hn |].
  intros i fields Hi.
  destruct (Forall2_lookup_l _ _ _ _ _ Hn Hi) as (b & Hb & Hab).
  unfold Normalise.normalise_item in Hab. fold (Normalise.original_key fields) in Hab.
  destruct (Normalise.original_key fields) as [| | |k| |] eqn:Hk; try discriminate.
  injection Hab as <-.
  exists (Normalise.dict_set "Key" (JStr (Normalise.normalise_key k)) fields), k.
  split; [exact Hb |]. split; [reflexivity |].
  split; [apply NormaliseFacts.dict_get_set_eq |].
  split; [intros k' Hk'; by apply NormaliseFacts.dict_get_set_ne |].
  apply NormaliseFacts.dict_set_keys.
Qed.

Lemma normalise_result_witness :
  exists items',
    JArr [JObj [("Id", JNum 7); ("Key", JStr "ab")]; JObj [("Id", JNum 8); ("Key", JStr EmptyString)]]
      = JArr items' /\
    length items' =
      length [JObj [("Id", JNum 7); ("Key", JStr " Ab ")]; JObj [("Id", JNum 8)]] /\
    forall i fields,
      [JObj [("Id", JNum 7); ("Key", JStr " Ab ")]; JObj [("Id", JNum 8)]] !! i
        = Some (JObj fields) ->
      exists fields' k,
        items' !! i = Some (JObj fields') /\
        Normalise.original_key fields = JStr k /\
        dict_get "Key" fields' = Some (JStr (Normalise.normalise_key k)) /\
        (forall k', k' <> "Key" -> dict_get k' fields' = dict_get k' fields) /\
        map fst fields' =
          if has_key "Key" fields then map fst fields else map fst fields ++ ["Key"].
Proof.
  apply (normalise_result
           [JObj [("Id", JNum 7); ("Key", JStr " Ab ")]; JObj [("Id", JNum 8)]]
           (JArr [JObj [("Id", JNum 7); ("Key", JStr "ab")];
                  JObj [("Id", JNum 8); ("Key", JStr EmptyString)]])).
  reflexivity.
Defined.

(** X10. Normalising is idempotent: run on a document it has written,
    [main] gets through and writes the same document again. *)
Theorem normalise_idempotent (data out : json) :
  Normalise.main data = Some out -> Normalise.main out = Some out.
Proof.
  unfold Normalise.main.
  destruct (py_iter data) as [items|] eqn:Hit; [| discriminate].
  destruct (Normalise.normalise_items items) as [items'|] eqn:Hn; [| discriminate].
  intros [= <-]. destruct data as [| | |s|l|fields]; try discriminate.
  - by rewrite Hit, Hn.
  - cbn [py_iter] in *. injection Hit as <-.
    apply NormaliseFacts.normalise_items_spec in Hn.
    assert (Normalise.normalise_items items' = Some items') as ->; [| reflexivity].
    apply NormaliseFacts.normalise_items_spec.
    induction Hn as [|a b l l' Hab _ IH]; constructor; [| exact IH].
    by apply NormaliseFacts.normalise_item_fixed in Hab.
  - by rewrite Hit, Hn.
Qed.

Lemma normalise_idempotent_witness :
  Normalise.main (JArr [JObj [("Id", JNum 7); ("Key", JStr "ab")]]) =
    Some (JArr [JObj [("Id", JNum 7); ("Key", JStr "ab")]]).
Proof.
  apply (normalise_idempotent (JArr [JObj [("Id", JNum 7); ("Key", JStr " Ab ")]])).
  reflexivity.
Defined.

(** X11. The normalised key does not depend on whitespace around the
    original key nor on the case of its letters, and normalising a
    normalised key changes nothing. *)
Theorem key_ignores_padding_and_case (a s b : string) :
  Normalise.all_space a ->
  Normalise.all_space b ->
  Normalise.normalise_key (a ++ s ++ b)%string = Normalise.normalise_key s /\
  Normalise.normalise_key (Normalise.py_lower s) = Normalise.normalise_key s /\
  Normalise.normalise_key (Normalise.normalise_key s) = Normalise.normalise_key s.
Proof.
  intros Ha Hb. split; [| split].
  - unfold Normalise.normalise_key, Normalise.py_strip.
    by rewrite (NormaliseFacts.lstrip_padding _ _ Ha), (NormaliseFacts.strip_padding_r _ _ Hb).
  - unfold Normalise.normalise_key.
    by rewrite NormaliseFacts.strip_lower, NormaliseFacts.py_lower_idem.
  - apply NormaliseFacts.normalise_key_idem.
Qed.

Lemma key_ignores_padding_and_case_witness :
  Normalise.normalise_key (" " ++ "Big Team" ++ "  ")%string =
    Normalise.normalise_key "Big Team" /\
  Normalise.normalise_key (Normalise.py_lower "Big Team") =
    Normalise.normalise_key "Big Team" /\
  Normalise.normalise_key (Normalise.normalise_key "Big Team") =
    Normalise.normalise_key "Big Team".
Proof.
  apply (key_ignores_padding_and_case " " "Big Team" "  ");
    unfold Normalise.all_space; simpl; repeat constructor.
Defined.

(** X12. A normalised key has no capital letter, neither begins nor ends
    with whitespace, and is no longer than the original key. *)
Theorem normalised_key_is_clean (k : string) :
  Forall (fun c => Normalise.is_upper c = false)
    (list_ascii_of_string (Normalise.normalise_key k)) /\
  (forall c rest,
     Normalise.normalise_key k = String c rest -> Normalise.is_space c = false) /\
  (forall pre c,
     Normalise.normalise_key k = (pre ++ String c EmptyString)%string ->
     Normalise.is_space c = false) /\
  (String.length (Normalise.normalise_key k) <= String.length k)%nat.
Proof.
  split; [apply NormaliseFacts.py_lower_not_upper |].
  split; [| split].
  - intros c rest H.
    unfold Normalise.normalise_key in H. rewrite <- NormaliseFacts.strip_lower in H.
    destruct (NormaliseFacts.py_strip_head (Normalise.py_lower k))
      as [He | (c' & rest' & Hs & Hc)]; rewrite H in *; congruence.
  - intros pre c H.
    unfold Normalise.normalise_key in H. rewrite <- NormaliseFacts.strip_lower in H.
    by apply NormaliseFacts.rstrip_last in H.
  - unfold Normalise.normalise_key, Normalise.py_strip.
    rewrite NormaliseFacts.py_lower_length.
    pose proof (NormaliseFacts.rstrip_length (Normalise.lstrip k)).
    pose proof (NormaliseFacts.lstrip_length k). lia.
Qed.
